(** * bcrypt-samp: the asynchronous bridge of [src/main.cpp]

    A shallow embedding of the plugin's natives ([bcrypt_hash],
    [bcrypt_check]), its worker threads, its result queue and its drain
    loop ([ProcessTick]), followed by the properties of the specification
    that concern them.

    Plan of the file:
    - machine integers and the calling convention of natives;
    - the interfaces the plugin is linked against (AMX function table,
      bcrypt class), as type classes;
    - the global state of the plugin and a state monad over it;
    - the functions of [main.cpp], in the order of the source;
    - the interleaving of the host thread with the worker threads, as a
      labelled step relation;
    - lemmas and theorems. *)

From Stdlib Require Import String ZArith List Bool Lia Permutation.
Import ListNotations.

Local Open Scope Z_scope.

(** ** Machine integers *)

(** A [cell] is the 32-bit signed word of the abstract machine. *)
Definition cell := Z.

(** [sizeof(cell)] on the 32-bit abstract machine the plugin is built for. *)
Definition sizeof_cell : Z := 4.

(** [(unsigned short) c]: conversion to a 16-bit unsigned integer keeps the
    value modulo 2^16. *)
Definition to_ushort (c : cell) : Z := c mod 65536.

(** [unsigned short] to [short], as happens when [std::thread] hands [cost]
    to [thread_generate_bcrypt(.., short cost)]. *)
Definition to_short (u : Z) : Z := if u <? 32768 then u else u - 65536.

(** [bool] pushed as a cell. *)
Definition cell_of_bool (b : bool) : cell := if b then 1 else 0.

(** ** Calling convention of natives

    A native receives [params]; [params[0]] holds the number of bytes of
    arguments and [params[1..]] the arguments themselves. *)

Definition param (i : nat) (params : list cell) : cell := nth i params 0.

(** The array the abstract machine builds for a call with arguments [args]. *)
Definition amx_params (args : list cell) : list cell :=
  (Z.of_nat (length args) * sizeof_cell) :: args.

(** The number of arguments of a call, [params[0] / sizeof(cell)]. *)
Definition amx_NumParams (params : list cell) : Z :=
  Z.quot (param 0 params) sizeof_cell.

(** ** External interfaces *)

(** An [AMX*]: the address of a script instance. *)
Definition AMX := Z.

(** A [cell*] into the data segment of a script ([0] is [NULL]). *)
Definition cellptr := Z.

(** The entries of the host's AMX function table that [main.cpp] reads
    from.  Their code belongs to the host, so they are kept abstract:
    - [amx_GetAddr amx a] is the pointer stored in [*addr];
    - [amx_StrLen p] is the value stored in [*length];
    - [amx_GetString p size] is the C string left in the destination
      buffer (unpacked source, [use_wchar = 0]);
    - [amx_FindPublic amx name] is the pair of the returned error code and
      the index stored in [*index];
    - [amx_Allot amx s] is the address stored in [*amx_addr] by
      [amx_PushString];
    - [amx_Register amx] is the error code of registering the natives. *)
Class AmxFunctions := {
  amx_GetAddr : AMX -> cell -> cellptr;
  amx_StrLen : cellptr -> Z;
  amx_GetString : cellptr -> Z -> string;
  amx_FindPublic : AMX -> string -> Z * Z;
  amx_Allot : AMX -> string -> cell;
  amx_Register : AMX -> Z
}.

(** The [bcrypt] class of [bcrypt.h], as far as [main.cpp] uses it:
    [bcrypt_generate cost prefix key] is what [generate()] returns after
    [setCost(cost)->setPrefix(prefix)->setKey(key)], and [bcrypt_compare]
    is the static [bcrypt::compare]. *)
Class Bcrypt := {
  bcrypt_generate : Z -> string -> string -> string;
  bcrypt_compare : string -> string -> bool
}.

(** ** Data model *)

(** Modelled from the spec: the constants [BCRYPT_QUEUE_HASH] and
    [BCRYPT_QUEUE_CHECK] of [main.h], which is not part of the sources at
    hand; the spec gives the operation as an enumeration of two values. *)
Inductive queue_type := BCRYPT_QUEUE_HASH | BCRYPT_QUEUE_CHECK.

(** Modelled from the spec: [struct bcrypt_queue_item] of [main.h].  The
    fields are those [ProcessTick] reads, in the order of the aggregate
    initialisers of the two worker functions. *)
Record bcrypt_queue_item := {
  type : queue_type;
  thread_idx : Z;
  thread_id : Z;
  hash : string;
  match_ : bool
}.

(** A detached [std::thread]: the function it runs and its arguments. *)
Inductive thread :=
| Thread_generate (idx id : Z) (buffer : string) (cost : Z)
| Thread_check (idx id : Z) (password hash_ : string).

(** A call into the AMX function table that acts on a script. *)
Inductive amx_event :=
| EvPushString (a : AMX) (s : string)
| EvPush (a : AMX) (v : cell)
| EvExec (a : AMX) (index : Z)
| EvRelease (a : AMX) (addr : cell).

(** The state the plugin acts on: its globals [p_Amx] and [bcrypt_queue],
    the lines printed through [logprintf], the threads started and not
    yet finished, and the calls made on scripts so far.  The mutex has no
    field: a critical section is one step (see [step] below). *)
Record world := {
  p_Amx : list AMX;
  bcrypt_queue : list bcrypt_queue_item;
  console : list string;
  running : list thread;
  amx_trace : list amx_event
}.

(** ** A state monad over [world] *)

Definition M (A : Type) : Type := world -> A * world.

Definition ret {A} (x : A) : M A := fun w => (x, w).

Definition bind {A B} (c : M A) (k : A -> M B) : M B :=
  fun w => let (x, w') := c w in k x w'.

Declare Scope plugin_scope.
Delimit Scope plugin_scope with plugin.
Notation "x <- c ;; k" := (bind c (fun x => k))
  (at level 61, c at next level, right associativity) : plugin_scope.
Notation "c ;; k" := (bind c (fun _ => k))
  (at level 61, right associativity) : plugin_scope.
Local Open Scope plugin_scope.

(** The world a computation leaves behind. *)
Definition exec_M {A} (c : M A) (w : world) : world := snd (c w).

(** A loop [for (it = l.begin(); it != l.end(); ++it)] whose body acts on
    the element under the iterator. *)
Fixpoint for_each {A} (body : A -> M unit) (l : list A) : M unit :=
  match l with
  | [] => ret tt
  | x :: l' => body x ;; for_each body l'
  end.

(** *** Primitive effects *)

Definition set_p_Amx (l : list AMX) (w : world) : world :=
  {| p_Amx := l; bcrypt_queue := bcrypt_queue w; console := console w;
     running := running w; amx_trace := amx_trace w |}.

Definition set_bcrypt_queue (q : list bcrypt_queue_item) (w : world) : world :=
  {| p_Amx := p_Amx w; bcrypt_queue := q; console := console w;
     running := running w; amx_trace := amx_trace w |}.

Definition set_running (l : list thread) (w : world) : world :=
  {| p_Amx := p_Amx w; bcrypt_queue := bcrypt_queue w; console := console w;
     running := l; amx_trace := amx_trace w |}.

(** [logprintf(line)]. *)
Definition logprintf (line : string) : M unit :=
  fun w => (tt, {| p_Amx := p_Amx w; bcrypt_queue := bcrypt_queue w;
                   console := console w ++ [line];
                   running := running w; amx_trace := amx_trace w |}).

(** [std::thread t(f, args...); t.detach();]  Creating the thread is
    taken to succeed. *)
Definition spawn (t : thread) : M unit :=
  fun w => (tt, set_running (running w ++ [t]) w).

(** [bcrypt_queue.push_back(item)]. *)
Definition queue_push_back (item : bcrypt_queue_item) : M unit :=
  fun w => (tt, set_bcrypt_queue (bcrypt_queue w ++ [item]) w).

(** [bcrypt_queue.clear()]. *)
Definition queue_clear : M unit :=
  fun w => (tt, set_bcrypt_queue [] w).

(** The world [w] after the calls [evs] on scripts. *)
Definition add_calls (evs : list amx_event) (w : world) : world :=
  {| p_Amx := p_Amx w; bcrypt_queue := bcrypt_queue w; console := console w;
     running := running w; amx_trace := amx_trace w ++ evs |}.

(** One call on a script. *)
Definition emit (e : amx_event) : M unit := fun w => (tt, add_calls [e] w).

Section Plugin.

Context {host : AmxFunctions} {crypt : Bcrypt}.

(** The entries of the function table that act on a script. *)
Definition amx_PushString (a : AMX) (s : string) : M cell :=
  emit (EvPushString a s) ;; ret (amx_Allot a s).

Definition amx_Push (a : AMX) (v : cell) : M unit := emit (EvPush a v).

Definition amx_Exec (a : AMX) (index : Z) : M unit := emit (EvExec a index).

Definition amx_Release (a : AMX) (addr : cell) : M unit :=
  emit (EvRelease a addr).

(** ** The functions of [main.cpp] *)

(** [bcrypt_error], lines 16-19. *)
Definition bcrypt_error (funcname error : string) : M unit :=
  logprintf
    ("bcrypt error: " ++ error ++ " (Called from " ++ funcname ++ ")")%string.

(** [thread_generate_bcrypt], lines 21-38. *)
Definition thread_generate_bcrypt
    (thread_idx thread_id : Z) (buffer : string) (cost : Z) : M unit :=
  let hash := bcrypt_generate cost "2y" buffer in
  queue_push_back
    {| type := BCRYPT_QUEUE_HASH; thread_idx := thread_idx;
       thread_id := thread_id; hash := hash; match_ := false |}.

(** [bcrypt_hash], lines 41-85. *)
Definition bcrypt_hash (amx : AMX) (params : list cell) : M cell :=
  if negb (param 0 params =? 4 * sizeof_cell) then
    bcrypt_error "bcrypt_hash" "Incorrect number of parameters (4 required)" ;;
    ret 0
  else
    let thread_idx := param 1 params in
    let thread_id := param 2 params in
    let cost := to_ushort (param 4 params) in
    if (cost <? 4) || (cost >? 31) then
      bcrypt_error "bcrypt_hash"
                   "Invalid work factor (cost). Allowed range: 4-31" ;;
      ret 0
    else
      let addr := amx_GetAddr amx (param 3 params) in
      let len := amx_StrLen addr in
      let password :=
        if negb (len =? 0) then amx_GetString addr (len + 1) else ""%string in
      spawn (Thread_generate thread_idx thread_id password (to_short cost)) ;;
      ret 1.

(** [thread_check_bcrypt], lines 87-96. *)
Definition thread_check_bcrypt
    (thread_idx thread_id : Z) (password hash : string) : M unit :=
  let match_ := bcrypt_compare password hash in
  queue_push_back
    {| type := BCRYPT_QUEUE_CHECK; thread_idx := thread_idx;
       thread_id := thread_id; hash := ""; match_ := match_ |}.

(** [bcrypt_check], lines 99-150. *)
Definition bcrypt_check (amx : AMX) (params : list cell) : M cell :=
  if negb (param 0 params =? 4 * sizeof_cell) then
    bcrypt_error "bcrypt_check" "Incorrect number of parameters (4 required)" ;;
    ret 0
  else
    let thread_idx := param 1 params in
    let thread_id := param 2 params in
    let addr0 := amx_GetAddr amx (param 3 params) in
    let len0 := amx_StrLen addr0 in
    let addr1 := amx_GetAddr amx (param 4 params) in
    let len1 := amx_StrLen addr1 in
    let password :=
      if negb (len0 =? 0) then amx_GetString addr0 (len0 + 1) else ""%string in
    let hash :=
      if negb (len1 =? 0) then amx_GetString addr1 (len1 + 1) else ""%string in
    spawn (Thread_check thread_idx thread_id password hash) ;;
    ret 1.

(** What a started thread runs. *)
Definition run_thread (t : thread) : M unit :=
  match t with
  | Thread_generate idx id buffer cost =>
      thread_generate_bcrypt idx id buffer cost
  | Thread_check idx id password hash_ =>
      thread_check_bcrypt idx id password hash_
  end.

(** [Unload], lines 169-174. *)
Definition Unload : M unit :=
  (fun w => (tt, set_p_Amx [] w)) ;;
  logprintf "plugin.bcrypt: Plugin unloaded.".

(** The body of the inner loop of [ProcessTick], lines 187-220, for the
    script [a] and the queue item [t]. *)
Definition deliver (a : AMX) (t : bcrypt_queue_item) : M unit :=
  match type t with
  | BCRYPT_QUEUE_HASH =>
      let (err, amx_idx) := amx_FindPublic a "OnBcryptHashed" in
      if err =? 0 then
        addr <- amx_PushString a (hash t) ;;
        amx_Push a (thread_id t) ;;
        amx_Push a (thread_idx t) ;;
        amx_Exec a amx_idx ;;
        amx_Release a addr
      else ret tt
  | BCRYPT_QUEUE_CHECK =>
      let (err, amx_idx) := amx_FindPublic a "OnBcryptChecked" in
      if err =? 0 then
        amx_Push a (cell_of_bool (match_ t)) ;;
        amx_Push a (thread_id t) ;;
        amx_Push a (thread_idx t) ;;
        amx_Exec a amx_idx
      else ret tt
  end.

(** The test of line 178, made before the mutex is taken. *)
Definition ProcessTick_test (w : world) : bool :=
  0 <? Z.of_nat (length (bcrypt_queue w)).

(** Lines 180-225: what [ProcessTick] does while it holds the mutex.  The
    inner loop walks the live queue, read afresh for each script. *)
Definition ProcessTick_locked : M unit :=
  (fun w =>
     for_each (fun a w' => for_each (deliver a) (bcrypt_queue w') w')
              (p_Amx w) w) ;;
  queue_clear.

(** [ProcessTick], lines 176-227, when no worker runs between the test
    and the acquisition of the mutex. *)
Definition ProcessTick : M unit :=
  fun w => if ProcessTick_test w then ProcessTick_locked w else (tt, w).

(** [AmxLoad], lines 236-240. *)
Definition AmxLoad (amx : AMX) : M Z :=
  (fun w => (tt, set_p_Amx (p_Amx w ++ [amx]) w)) ;;
  ret (amx_Register amx).

(** The loop of [AmxUnload]: erase the first entry equal to [amx]. *)
Fixpoint erase_first (amx : AMX) (l : list AMX) : list AMX :=
  match l with
  | [] => []
  | i :: l' => if i =? amx then l' else i :: erase_first amx l'
  end.

(** [AmxUnload], lines 243-255 ([AMX_ERR_NONE] is [0]). *)
Definition AmxUnload (amx : AMX) : M Z :=
  (fun w => (tt, set_p_Amx (erase_first amx (p_Amx w)) w)) ;;
  ret 0.

End Plugin.

(** ** The host thread and the workers, interleaved

    The host runs natives, the lifecycle hooks and [ProcessTick] on one
    thread.  A worker computes on its own and touches shared state only in
    its [push_back], under the mutex; [ProcessTick] reads the size of the
    queue without the mutex (line 178) and then does all the rest under it.
    So a run is an interleaving of steps, each of which is either a whole
    critical section or an action on state the other side does not touch.
    The unlocked read of line 178 is taken to return the current size.
    A native that a callback invokes during a drain cycle starts a thread
    that cannot append before the tick releases the mutex; a run shows it
    as a native step right after the drain step. *)

(** Where the host thread stands: outside [ProcessTick], or inside it,
    past the test of line 178 and before the mutex of line 180. *)
Inductive hostpc := Idle | Entered.

Definition system : Type := world * hostpc.

(** What a step shows: the items a finishing worker appended, a tick that
    returned at line 178, a tick that passed line 178, the queue a tick
    found once it held the mutex, or another action of the host. *)
Inductive label :=
| LPush (items : list bcrypt_queue_item)
| LTickSkip
| LTickEnter
| LDrain (batch : list bcrypt_queue_item)
| LHost.

Section Interleaving.

Context {host : AmxFunctions} {crypt : Bcrypt}.

Inductive step : system -> label -> system -> Prop :=
| step_worker w pc before t after w' :
    running w = before ++ t :: after ->
    w' = exec_M (run_thread t) (set_running (before ++ after) w) ->
    step (w, pc)
         (LPush (skipn (length (bcrypt_queue w)) (bcrypt_queue w')))
         (w', pc)
| step_tick_skip w :
    ProcessTick_test w = false ->
    step (w, Idle) LTickSkip (w, Idle)
| step_tick_enter w :
    ProcessTick_test w = true ->
    step (w, Idle) LTickEnter (w, Entered)
| step_tick_drain w :
    step (w, Entered) (LDrain (bcrypt_queue w))
         (exec_M ProcessTick_locked w, Idle)
| step_bcrypt_hash w amx params :
    step (w, Idle) LHost (exec_M (bcrypt_hash amx params) w, Idle)
| step_bcrypt_check w amx params :
    step (w, Idle) LHost (exec_M (bcrypt_check amx params) w, Idle)
| step_AmxLoad w amx :
    step (w, Idle) LHost (exec_M (AmxLoad amx) w, Idle)
| step_AmxUnload w amx :
    step (w, Idle) LHost (exec_M (AmxUnload amx) w, Idle)
| step_Unload w :
    step (w, Idle) LHost (exec_M Unload w, Idle).

(** A run: a sequence of steps and the labels they show. *)
Inductive run : system -> list label -> system -> Prop :=
| run_nil s : run s [] s
| run_cons s l s1 tr s' : step s l s1 -> run s1 tr s' -> run s (l :: tr) s'.

End Interleaving.

(** All items workers appended during a run, in the order of appending. *)
Definition pushed (tr : list label) : list bcrypt_queue_item :=
  flat_map (fun l => match l with LPush items => items | _ => [] end) tr.

(** The queues the drain cycles of a run found, cycle by cycle. *)
Definition drained (tr : list label) : list (list bcrypt_queue_item) :=
  flat_map (fun l => match l with LDrain batch => [batch] | _ => [] end) tr.

(** The part of a run before its first drain cycle, and the queue that
    cycle found. *)
Fixpoint until_drain (tr : list label) : list label :=
  match tr with
  | [] => []
  | LDrain _ :: _ => []
  | l :: tr' => l :: until_drain tr'
  end.

Fixpoint first_drain (tr : list label) : option (list bcrypt_queue_item) :=
  match tr with
  | [] => None
  | LDrain batch :: _ => Some batch
  | _ :: tr' => first_drain tr'
  end.

(** The state of a freshly loaded plugin. *)
Definition boot : world :=
  {| p_Amx := []; bcrypt_queue := []; console := []; running := [];
     amx_trace := [] |}.

(** ** What one drain cycle is expected to do *)

Section Expected.

Context {host : AmxFunctions} {crypt : Bcrypt}.

(** The item a thread is expected to append when it finishes. *)
Definition result_of (t : thread) : bcrypt_queue_item :=
  match t with
  | Thread_generate idx id buffer cost =>
      {| type := BCRYPT_QUEUE_HASH; thread_idx := idx; thread_id := id;
         hash := bcrypt_generate cost "2y" buffer; match_ := false |}
  | Thread_check idx id password hash_ =>
      {| type := BCRYPT_QUEUE_CHECK; thread_idx := idx; thread_id := id;
         hash := ""; match_ := bcrypt_compare password hash_ |}
  end.

(** The public function a queue item is delivered to. *)
Definition callback_name (t : bcrypt_queue_item) : string :=
  match type t with
  | BCRYPT_QUEUE_HASH => "OnBcryptHashed"
  | BCRYPT_QUEUE_CHECK => "OnBcryptChecked"
  end.

(** Whether the script [a] has the public function for the item [t]. *)
Definition implements (a : AMX) (t : bcrypt_queue_item) : bool :=
  fst (amx_FindPublic a (callback_name t)) =? 0.

(** The calls that hand the item [t] to the script [a], which has the
    public function for it. *)
Definition callback (a : AMX) (t : bcrypt_queue_item) : list amx_event :=
  let index := snd (amx_FindPublic a (callback_name t)) in
  match type t with
  | BCRYPT_QUEUE_HASH =>
      [EvPushString a (hash t); EvPush a (thread_id t);
       EvPush a (thread_idx t); EvExec a index;
       EvRelease a (amx_Allot a (hash t))]
  | BCRYPT_QUEUE_CHECK =>
      [EvPush a (cell_of_bool (match_ t)); EvPush a (thread_id t);
       EvPush a (thread_idx t); EvExec a index]
  end.

(** Offering [t] to [a]: the callback if [a] has it, nothing otherwise. *)
Definition offer (a : AMX) (t : bcrypt_queue_item) : list amx_event :=
  if implements a t then callback a t else [].

(** The executions of public functions among a list of calls. *)
Definition invocations (evs : list amx_event) : list (AMX * Z) :=
  flat_map (fun e => match e with EvExec a i => [(a, i)] | _ => [] end) evs.

(** The execution expected when [t] is offered to [a]: one, of the
    public function found, if [a] has it; none otherwise. *)
Definition invocation (a : AMX) (t : bcrypt_queue_item) : list (AMX * Z) :=
  if implements a t then [(a, snd (amx_FindPublic a (callback_name t)))]
  else [].

(** The string a native is expected to read from the address [a] of the
    script [amx]: empty when the length found there is zero. *)
Definition string_param (amx : AMX) (a : cell) : string :=
  let addr := amx_GetAddr amx a in
  if amx_StrLen addr =? 0 then ""%string
  else amx_GetString addr (amx_StrLen addr + 1).

(** The calls of a whole drain cycle: each script in turn is offered each
    item in turn. *)
Definition cycle_calls (w : world) : list amx_event :=
  flat_map (fun a => flat_map (offer a) (bcrypt_queue w)) (p_Amx w).

(** The line [bcrypt_error] prints. *)
Definition diagnostic (funcname error : string) : string :=
  ("bcrypt error: " ++ error ++ " (Called from " ++ funcname ++ ")")%string.

(** A native that refuses a call: it returns [0], prints one line and
    leaves everything else as it was. *)
Definition rejected (funcname error : string) (w : world) (r : cell * world)
  : Prop :=
  fst r = 0 /\
  console (snd r) = console w ++ [diagnostic funcname error] /\
  running (snd r) = running w /\
  bcrypt_queue (snd r) = bcrypt_queue w /\
  p_Amx (snd r) = p_Amx w /\
  amx_trace (snd r) = amx_trace w.

(** A native that accepts a call: it returns [1] with the thread [t]
    started and not yet finished, nothing printed, and the queue as it
    was. *)
Definition accepted (t : thread) (w : world) (r : cell * world) : Prop :=
  fst r = 1 /\
  running (snd r) = running w ++ [t] /\
  bcrypt_queue (snd r) = bcrypt_queue w /\
  console (snd r) = console w /\
  p_Amx (snd r) = p_Amx w /\
  amx_trace (snd r) = amx_trace w.

End Expected.

(** The calls on scripts made between the world [w] and the later [w']. *)
Definition new_calls (w w' : world) : list amx_event :=
  skipn (length (amx_trace w)) (amx_trace w').

(** ** A concrete host, for examples

    Three scripts: script [1] has both public functions, script [2] has
    [OnBcryptHashed] only and script [3] has neither.  Address [100] holds
    the string [abc], address [200] the string [$2y$abc], and every other
    address the empty string. *)

Definition AMX_ERR_NOTFOUND : Z := 19.

Definition demo_host : AmxFunctions := {|
  amx_GetAddr := fun _ a => a;
  amx_StrLen := fun p =>
    if p =? 100 then 3 else if p =? 200 then 7 else 0;
  amx_GetString := fun p size =>
    substring 0 (Z.to_nat (size - 1))
              (if p =? 100 then "abc"%string
               else if p =? 200 then "$2y$abc"%string else ""%string);
  amx_FindPublic := fun amx name =>
    if String.eqb name "OnBcryptHashed" then
      if (amx =? 1) || (amx =? 2) then (0, 0) else (AMX_ERR_NOTFOUND, 2147483647)
    else if String.eqb name "OnBcryptChecked" then
      if amx =? 1 then (0, 1) else (AMX_ERR_NOTFOUND, 2147483647)
    else (AMX_ERR_NOTFOUND, 2147483647);
  amx_Allot := fun _ _ => 0;
  amx_Register := fun _ => 0
|}.

(** A stand-in for the bcrypt class: the digest is the key behind a
    header, and comparing recomputes it. *)
Definition demo_crypt : Bcrypt := {|
  bcrypt_generate := fun cost prefix key =>
    ("$" ++ prefix ++ "$" ++ key)%string;
  bcrypt_compare := fun password hash_ =>
    String.eqb hash_ ("$2y$" ++ password)%string
|}.

(** Two queue items and a world with the three scripts registered and
    the two items queued. *)
Definition demo_hashed : bcrypt_queue_item :=
  {| type := BCRYPT_QUEUE_HASH; thread_idx := 7; thread_id := 42;
     hash := "$2y$abc"; match_ := false |}.

Definition demo_checked : bcrypt_queue_item :=
  {| type := BCRYPT_QUEUE_CHECK; thread_idx := 7; thread_id := 43;
     hash := ""; match_ := true |}.

Definition demo_world : world :=
  {| p_Amx := [1; 2; 3]; bcrypt_queue := [demo_hashed; demo_checked];
     console := []; running := []; amx_trace := [] |}.

(** A world with one item queued and no script registered. *)
Definition demo_unattended : world :=
  {| p_Amx := []; bcrypt_queue := [demo_hashed];
     console := []; running := []; amx_trace := [] |}.

(** A run: script [1] attaches and submits a hash job and a check job; the
    hash worker finishes; a tick passes the test of line 178; the check
    worker finishes before the tick gets the mutex; the tick drains. *)
Definition demo_job_hash : thread := Thread_generate 7 42 "abc" 10.
Definition demo_job_check : thread := Thread_check 7 43 "abc" "$2y$abc".

Definition demo_w1 : world := exec_M (AmxLoad (host := demo_host) 1) boot.
Definition demo_w2 : world :=
  exec_M (bcrypt_hash (host := demo_host) 1 (amx_params [7; 42; 100; 10]))
         demo_w1.
Definition demo_w3 : world :=
  exec_M (bcrypt_check (host := demo_host) 1 (amx_params [7; 43; 100; 200]))
         demo_w2.
Definition demo_w4 : world :=
  exec_M (run_thread (crypt := demo_crypt) demo_job_hash)
         (set_running [demo_job_check] demo_w3).
Definition demo_w5 : world :=
  exec_M (run_thread (crypt := demo_crypt) demo_job_check)
         (set_running [] demo_w4).
Definition demo_w6 : world :=
  exec_M (ProcessTick_locked (host := demo_host)) demo_w5.

Definition demo_trace : list label :=
  [LHost; LHost; LHost; LPush [demo_hashed]; LTickEnter; LPush [demo_checked];
   LDrain [demo_hashed; demo_checked]].

(** ** Further observations on calls, jobs and the registry *)

(** The script a call acts on. *)
Definition event_amx (e : amx_event) : AMX :=
  match e with
  | EvPushString a _ | EvPush a _ | EvExec a _ | EvRelease a _ => a
  end.

(** The executions of public functions of the script [a] among calls. *)
Definition executions_on (a : AMX) (evs : list amx_event) : list (AMX * Z) :=
  filter (fun c : AMX * Z => fst c =? a) (invocations evs).

(** The heap cells released among calls, script and address. *)
Definition released (evs : list amx_event) : list (AMX * cell) :=
  flat_map (fun e => match e with EvRelease a addr => [(a, addr)] | _ => [] end)
           evs.

Section Heap.

Context {host : AmxFunctions}.

(** The heap cells [amx_PushString] handed out among calls, script and
    address. *)
Definition allotted (evs : list amx_event) : list (AMX * cell) :=
  flat_map (fun e => match e with
                     | EvPushString a s => [(a, amx_Allot a s)]
                     | _ => []
                     end) evs.

End Heap.

(** The arguments pushed for executions among calls. *)
Definition pushes (evs : list amx_event) : list amx_event :=
  filter (fun e => match e with
                   | EvPushString _ _ | EvPush _ _ => true
                   | _ => false
                   end) evs.

(** A hashing job whose cost the bcrypt class accepts. *)
Definition valid_job (t : thread) : Prop :=
  match t with
  | Thread_generate _ _ _ cost => 4 <= cost <= 31
  | Thread_check _ _ _ _ => True
  end.

Section Completion.

Context {crypt : Bcrypt}.

(** The labels shown when the threads [ts] finish one after the other,
    and the world they leave. *)
Definition finish_labels (ts : list thread) : list label :=
  map (fun t => LPush [result_of t]) ts.

Definition finish_all (ts : list thread) (w : world) : world :=
  set_running [] (set_bcrypt_queue (bcrypt_queue w ++ map result_of ts) w).

End Completion.

(** A world where script [2] is attached twice. *)
Definition demo_twice : world :=
  {| p_Amx := [1; 2; 3; 2]; bcrypt_queue := [demo_hashed; demo_checked];
     console := []; running := [demo_job_hash]; amx_trace := [] |}.

(** * Lemmas *)

(** ** Machine integers and the calling convention *)

Lemma to_ushort_range c : 0 <= to_ushort c < 65536.
Proof. unfold to_ushort. apply Z.mod_pos_bound. lia. Qed.

Lemma to_ushort_small c : 0 <= c < 65536 -> to_ushort c = c.
Proof. intros Hc. unfold to_ushort. apply Z.mod_small. exact Hc. Qed.

Lemma to_short_small u : u < 32768 -> to_short u = u.
Proof.
  intros Hu. unfold to_short.
  destruct (Z.ltb_spec u 32768) as [_ | Hge]; [reflexivity | lia].
Qed.

Lemma param_amx_params_0 args :
  param 0 (amx_params args) = Z.of_nat (length args) * sizeof_cell.
Proof. reflexivity. Qed.

Lemma param_amx_params_S i args :
  param (S i) (amx_params args) = nth i args 0.
Proof. reflexivity. Qed.

Lemma amx_NumParams_amx_params args :
  amx_NumParams (amx_params args) = Z.of_nat (length args).
Proof.
  unfold amx_NumParams. rewrite param_amx_params_0.
  unfold sizeof_cell. apply Z.quot_mul. lia.
Qed.

(** The test of line 44 (and 102) lets through calls of four arguments
    only. *)
Lemma arity_test_NumParams params :
  param 0 params = 4 * sizeof_cell -> amx_NumParams params = 4.
Proof. intros H. unfold amx_NumParams. rewrite H. reflexivity. Qed.

(** ** Worlds *)

Lemma add_calls_nil w : add_calls [] w = w.
Proof. destruct w. unfold add_calls. simpl. rewrite app_nil_r. reflexivity. Qed.

Lemma add_calls_app evs1 evs2 w :
  add_calls evs2 (add_calls evs1 w) = add_calls (evs1 ++ evs2) w.
Proof. unfold add_calls. simpl. rewrite app_assoc. reflexivity. Qed.

Lemma new_calls_add_calls evs w : new_calls w (add_calls evs w) = evs.
Proof.
  unfold new_calls, add_calls. simpl.
  rewrite skipn_app, skipn_all, Nat.sub_diag. reflexivity.
Qed.

Lemma new_calls_set_bcrypt_queue q evs w :
  new_calls w (set_bcrypt_queue q (add_calls evs w)) = evs.
Proof.
  unfold new_calls, add_calls, set_bcrypt_queue. simpl.
  rewrite skipn_app, skipn_all, Nat.sub_diag. reflexivity.
Qed.

(** ** The drain loop *)

Section DrainLemmas.

Context {host : AmxFunctions} {crypt : Bcrypt}.

(** One pass through the body of the inner loop offers the item to the
    script. *)
Lemma deliver_offer a t w : deliver a t w = (tt, add_calls (offer a t) w).
Proof.
  unfold deliver, offer, implements, callback, callback_name.
  destruct (type t);
    destruct (amx_FindPublic a _) as [err amx_idx]; simpl;
    destruct (err =? 0); unfold ret;
    try (rewrite add_calls_nil; reflexivity);
    cbv [bind amx_PushString amx_Push amx_Exec amx_Release emit ret add_calls];
    simpl; repeat rewrite <- app_assoc; reflexivity.
Qed.

(** The inner loop offers the items to the script, front to back. *)
Lemma inner_loop a q w :
  for_each (deliver a) q w = (tt, add_calls (flat_map (offer a) q) w).
Proof.
  revert w. induction q as [| t q IH]; intros w; simpl.
  - unfold ret. rewrite add_calls_nil. reflexivity.
  - unfold bind. rewrite deliver_offer, IH, add_calls_app. reflexivity.
Qed.

(** The outer loop does so for each script, front to back. *)
Lemma outer_loop l w :
  for_each (fun a w' => for_each (deliver a) (bcrypt_queue w') w') l w =
  (tt, add_calls (flat_map (fun a => flat_map (offer a) (bcrypt_queue w)) l) w).
Proof.
  revert w. induction l as [| a l IH]; intros w; simpl.
  - unfold ret. rewrite add_calls_nil. reflexivity.
  - unfold bind. rewrite inner_loop, IH, add_calls_app. reflexivity.
Qed.

Lemma ProcessTick_locked_eq w :
  ProcessTick_locked w = (tt, set_bcrypt_queue [] (add_calls (cycle_calls w) w)).
Proof.
  unfold ProcessTick_locked, bind, queue_clear.
  rewrite outer_loop. reflexivity.
Qed.

Lemma ProcessTick_test_true w :
  ProcessTick_test w = true <-> bcrypt_queue w <> [].
Proof.
  unfold ProcessTick_test. destruct (bcrypt_queue w); simpl.
  - split; [discriminate | congruence].
  - split; [discriminate | reflexivity].
Qed.

Lemma ProcessTick_test_false w :
  ProcessTick_test w = false <-> bcrypt_queue w = [].
Proof.
  unfold ProcessTick_test. destruct (bcrypt_queue w); simpl.
  - split; reflexivity.
  - split; discriminate.
Qed.

Lemma ProcessTick_nonempty w :
  bcrypt_queue w <> [] ->
  ProcessTick w = (tt, set_bcrypt_queue [] (add_calls (cycle_calls w) w)).
Proof.
  intros Hq. unfold ProcessTick.
  apply ProcessTick_test_true in Hq. rewrite Hq.
  apply ProcessTick_locked_eq.
Qed.

Lemma ProcessTick_empty w : bcrypt_queue w = [] -> ProcessTick w = (tt, w).
Proof.
  intros Hq. unfold ProcessTick.
  apply ProcessTick_test_false in Hq. rewrite Hq. reflexivity.
Qed.

Lemma new_calls_same w : new_calls w w = [].
Proof. unfold new_calls. apply skipn_all. Qed.

Lemma cycle_calls_empty_queue w : bcrypt_queue w = [] -> cycle_calls w = [].
Proof.
  intros Hq. unfold cycle_calls. rewrite Hq.
  induction (p_Amx w) as [| a l IH]; simpl; [reflexivity | exact IH].
Qed.

(** The calls of [ProcessTick], whatever the queue holds. *)
Lemma ProcessTick_calls w :
  new_calls w (exec_M ProcessTick w) = cycle_calls w.
Proof.
  destruct (bcrypt_queue w) as [| t q] eqn:Hq.
  - unfold exec_M. rewrite ProcessTick_empty by exact Hq.
    rewrite cycle_calls_empty_queue by exact Hq. apply new_calls_same.
  - unfold exec_M. rewrite ProcessTick_nonempty by (rewrite Hq; discriminate).
    apply new_calls_set_bcrypt_queue.
Qed.

Lemma invocations_app evs1 evs2 :
  invocations (evs1 ++ evs2) = invocations evs1 ++ invocations evs2.
Proof. unfold invocations. apply flat_map_app. Qed.

Lemma invocations_offer a t : invocations (offer a t) = invocation a t.
Proof.
  unfold offer, invocation, callback.
  destruct (implements a t); [| reflexivity].
  destruct (type t); reflexivity.
Qed.

Lemma invocations_inner a q :
  invocations (flat_map (offer a) q) = flat_map (invocation a) q.
Proof.
  induction q as [| t q IH]; simpl; [reflexivity |].
  rewrite invocations_app, invocations_offer, IH. reflexivity.
Qed.

Lemma invocations_cycle l q :
  invocations (flat_map (fun a => flat_map (offer a) q) l) =
  flat_map (fun a => flat_map (invocation a) q) l.
Proof.
  induction l as [| a l IH]; simpl; [reflexivity |].
  rewrite invocations_app, invocations_inner, IH. reflexivity.
Qed.

(** With one item queued and every script implementing its callback,
    there are as many executions as scripts. *)
Lemma fan_out_length t l :
  (forall a, In a l -> implements a t = true) ->
  length (flat_map (fun a => flat_map (invocation a) [t]) l) = length l.
Proof.
  induction l as [| a l IH]; intros Hall; [reflexivity |].
  change (flat_map (fun a => flat_map (invocation a) [t]) (a :: l))
    with (flat_map (invocation a) [t]
            ++ flat_map (fun a => flat_map (invocation a) [t]) l).
  rewrite length_app, IH.
  - unfold invocation. simpl. rewrite (Hall a) by (left; reflexivity).
    reflexivity.
  - intros b Hb. apply Hall. right. exact Hb.
Qed.

(** An offer to a registered script of a queued item is part of the
    cycle. *)
Lemma offer_in_cycle a t w :
  In a (p_Amx w) -> In t (bcrypt_queue w) ->
  incl (offer a t) (cycle_calls w).
Proof.
  intros Ha Ht e He. unfold cycle_calls.
  apply in_flat_map. exists a. split; [exact Ha |].
  apply in_flat_map. exists t. split; assumption.
Qed.

End DrainLemmas.

(** ** Workers and natives *)

Section WorkerLemmas.

Context {host : AmxFunctions} {crypt : Bcrypt}.

Lemma run_thread_eq t w :
  run_thread t w = (tt, set_bcrypt_queue (bcrypt_queue w ++ [result_of t]) w).
Proof. destruct t; reflexivity. Qed.

Lemma bcrypt_hash_queue amx params w :
  bcrypt_queue (exec_M (bcrypt_hash amx params) w) = bcrypt_queue w.
Proof.
  unfold exec_M, bcrypt_hash.
  destruct (negb _); [reflexivity |].
  destruct (_ || _); reflexivity.
Qed.

Lemma bcrypt_check_queue amx params w :
  bcrypt_queue (exec_M (bcrypt_check amx params) w) = bcrypt_queue w.
Proof. unfold exec_M, bcrypt_check. destruct (negb _); reflexivity. Qed.

End WorkerLemmas.

(** ** Runs *)

Section RunLemmas.

Context {host : AmxFunctions} {crypt : Bcrypt}.

(** What a step does to the queue, by the label it shows. *)
Lemma step_queue s l s' :
  step s l s' ->
  match l with
  | LPush items => bcrypt_queue (fst s') = bcrypt_queue (fst s) ++ items
  | LDrain batch => batch = bcrypt_queue (fst s) /\ bcrypt_queue (fst s') = []
  | LTickSkip => bcrypt_queue (fst s) = [] /\ s' = s
  | LTickEnter | LHost => bcrypt_queue (fst s') = bcrypt_queue (fst s)
  end.
Proof.
  intros Hstep. destruct Hstep; simpl.
  - subst w'. unfold exec_M. rewrite run_thread_eq. simpl.
    rewrite skipn_app, skipn_all, Nat.sub_diag. reflexivity.
  - split; [apply ProcessTick_test_false; assumption | reflexivity].
  - reflexivity.
  - split; [reflexivity |].
    unfold exec_M. rewrite ProcessTick_locked_eq. reflexivity.
  - apply bcrypt_hash_queue.
  - apply bcrypt_check_queue.
  - reflexivity.
  - reflexivity.
  - reflexivity.
Qed.

(** Conservation: what was queued at the start of a run, followed by what
    workers appended during it, is what its drain cycles found followed by
    what is queued at its end. *)
Lemma run_conservation s tr s' :
  run s tr s' ->
  bcrypt_queue (fst s) ++ pushed tr =
  concat (drained tr) ++ bcrypt_queue (fst s').
Proof.
  induction 1 as [s | s l s1 tr s' Hstep Hrun IH].
  - simpl. apply app_nil_r.
  - apply step_queue in Hstep.
    destruct l; simpl; unfold pushed, drained in *; simpl.
    + rewrite Hstep in IH. rewrite <- IH. apply app_assoc.
    + destruct Hstep as [_ ->]. exact IH.
    + rewrite <- Hstep. exact IH.
    + destruct Hstep as [-> Hnil]. rewrite Hnil in IH. simpl in IH.
      rewrite <- app_assoc, <- IH. reflexivity.
    + rewrite <- Hstep. exact IH.
Qed.

(** What is queued stays queued, in place, until a drain cycle finds it:
    the first cycle of a run finds the queue of the start followed by what
    workers appended meanwhile.  If something is queued at the start, no
    tick before that cycle returns at line 178. *)
Lemma run_next_cycle s tr s' :
  run s tr s' ->
  (bcrypt_queue (fst s) <> [] -> ~ In LTickSkip (until_drain tr)) /\
  match first_drain tr with
  | Some batch => batch = bcrypt_queue (fst s) ++ pushed (until_drain tr)
  | None => bcrypt_queue (fst s') = bcrypt_queue (fst s) ++ pushed tr
  end.
Proof.
  induction 1 as [s | s l s1 tr s' Hstep Hrun [IH1 IH2]].
  - simpl. split; [intros _ [] | symmetry; apply app_nil_r].
  - apply step_queue in Hstep.
    destruct l; simpl.
    + rewrite Hstep in IH1, IH2. split.
      * intros Hne [Habs | Habs]; [discriminate |].
        revert Habs. apply IH1.
        destruct (bcrypt_queue (fst s)); [congruence | discriminate].
      * unfold pushed in *; simpl.
        destruct (first_drain tr); rewrite IH2; symmetry; apply app_assoc.
    + destruct Hstep as [Hnil ->]. split.
      * intros Hne. contradiction.
      * exact IH2.
    + rewrite Hstep in IH1, IH2. split.
      * intros Hne [Habs | Habs]; [discriminate | exact (IH1 Hne Habs)].
      * exact IH2.
    + destruct Hstep as [-> _]. split.
      * intros _ [].
      * unfold pushed. simpl. symmetry. apply app_nil_r.
    + rewrite Hstep in IH1, IH2. split.
      * intros Hne [Habs | Habs]; [discriminate | exact (IH1 Hne Habs)].
      * exact IH2.
Qed.

(** A run that ends with a drain cycle ends with an empty queue. *)
Lemma run_drain_last s tr batch s' :
  run s (tr ++ [LDrain batch]) s' -> bcrypt_queue (fst s') = [].
Proof.
  revert s. induction tr as [| l tr IH]; intros s Hrun; simpl in Hrun.
  - inversion Hrun as [| s0 l0 s1 tr0 s2 Hstep Hrest]; subst.
    inversion Hrest; subst.
    apply step_queue in Hstep. apply Hstep.
  - inversion Hrun; subst. eapply IH; eassumption.
Qed.

(** The calls a drain step makes are the offers of the queue it found to
    the registered scripts. *)
Lemma step_drain_calls w pc batch s' :
  step (w, pc) (LDrain batch) s' ->
  new_calls w (fst s') =
  flat_map (fun a => flat_map (offer a) batch) (p_Amx w).
Proof.
  intros Hstep. inversion Hstep; subst. simpl.
  unfold exec_M. rewrite ProcessTick_locked_eq. simpl.
  apply new_calls_set_bcrypt_queue.
Qed.

End RunLemmas.

(** ** The natives, case by case *)

Section NativeLemmas.

Context {host : AmxFunctions} {crypt : Bcrypt}.

Lemma rejected_bcrypt_error funcname error w :
  rejected funcname error w (0, exec_M (bcrypt_error funcname error) w).
Proof. unfold rejected. simpl. repeat split; reflexivity. Qed.

Lemma accepted_spawn t w : accepted t w (1, exec_M (spawn t) w).
Proof. unfold accepted. simpl. repeat split; reflexivity. Qed.

Lemma arity_test_fails params :
  param 0 params <> 4 * sizeof_cell ->
  negb (param 0 params =? 4 * sizeof_cell) = true.
Proof. intros H. apply negb_true_iff, Z.eqb_neq. exact H. Qed.

Lemma arity_test_passes params :
  param 0 params = 4 * sizeof_cell ->
  negb (param 0 params =? 4 * sizeof_cell) = false.
Proof. intros H. apply negb_false_iff, Z.eqb_eq. exact H. Qed.

Lemma NumParams_arity params :
  amx_NumParams params <> 4 -> param 0 params <> 4 * sizeof_cell.
Proof. intros H Heq. apply H, arity_test_NumParams, Heq. Qed.

Lemma cost_test_fails cost :
  cost < 4 \/ 31 < cost -> (cost <? 4) || (cost >? 31) = true.
Proof.
  intros [H | H]; apply orb_true_iff; [left | right].
  - apply Z.ltb_lt. exact H.
  - apply Z.gtb_lt. exact H.
Qed.

Lemma cost_test_passes cost :
  4 <= cost <= 31 -> (cost <? 4) || (cost >? 31) = false.
Proof.
  intros [H4 H31]. apply orb_false_iff. split.
  - apply Z.ltb_ge. exact H4.
  - rewrite Z.gtb_ltb. apply Z.ltb_ge. exact H31.
Qed.

Lemma bcrypt_hash_wrong_arity amx params w :
  param 0 params <> 4 * sizeof_cell ->
  rejected "bcrypt_hash" "Incorrect number of parameters (4 required)" w
           (bcrypt_hash amx params w).
Proof.
  intros H. unfold bcrypt_hash. rewrite (arity_test_fails _ H).
  apply rejected_bcrypt_error.
Qed.

Lemma bcrypt_check_wrong_arity amx params w :
  param 0 params <> 4 * sizeof_cell ->
  rejected "bcrypt_check" "Incorrect number of parameters (4 required)" w
           (bcrypt_check amx params w).
Proof.
  intros H. unfold bcrypt_check. rewrite (arity_test_fails _ H).
  apply rejected_bcrypt_error.
Qed.

Lemma bcrypt_hash_bad_cost amx params w :
  param 0 params = 4 * sizeof_cell ->
  to_ushort (param 4 params) < 4 \/ 31 < to_ushort (param 4 params) ->
  rejected "bcrypt_hash" "Invalid work factor (cost). Allowed range: 4-31" w
           (bcrypt_hash amx params w).
Proof.
  intros Ha Hc. unfold bcrypt_hash.
  rewrite (arity_test_passes _ Ha), (cost_test_fails _ Hc).
  apply rejected_bcrypt_error.
Qed.

Lemma bcrypt_hash_good_cost amx params w :
  param 0 params = 4 * sizeof_cell ->
  4 <= to_ushort (param 4 params) <= 31 ->
  accepted (Thread_generate (param 1 params) (param 2 params)
                            (string_param amx (param 3 params))
                            (to_ushort (param 4 params)))
           w (bcrypt_hash amx params w).
Proof.
  intros Ha Hc. unfold bcrypt_hash.
  rewrite (arity_test_passes _ Ha), (cost_test_passes _ Hc).
  rewrite to_short_small by lia.
  unfold string_param.
  destruct (amx_StrLen _ =? 0); apply accepted_spawn.
Qed.

Lemma bcrypt_check_good amx params w :
  param 0 params = 4 * sizeof_cell ->
  accepted (Thread_check (param 1 params) (param 2 params)
                         (string_param amx (param 3 params))
                         (string_param amx (param 4 params)))
           w (bcrypt_check amx params w).
Proof.
  intros Ha. unfold bcrypt_check.
  rewrite (arity_test_passes _ Ha).
  unfold string_param.
  destruct (amx_StrLen (amx_GetAddr amx (param 3 params)) =? 0);
    destruct (amx_StrLen (amx_GetAddr amx (param 4 params)) =? 0);
    apply accepted_spawn.
Qed.

Lemma string_param_empty amx a :
  amx_StrLen (amx_GetAddr amx a) = 0 -> string_param amx a = ""%string.
Proof. intros H. unfold string_param. rewrite H. reflexivity. Qed.

(** A call cannot be both refused and accepted. *)
Lemma rejected_not_accepted funcname error t w r :
  rejected funcname error w r -> ~ accepted t w r.
Proof. intros [H0 _] [H1 _]. rewrite H0 in H1. discriminate. Qed.

End NativeLemmas.

(** ** The model at work *)

(** One tick over the example world: script [1] gets both items, script
    [2] the hashed one only, script [3] nothing, and the queue is left
    empty. *)
Example demo_tick_calls :
  amx_trace (exec_M (ProcessTick (host := demo_host)) demo_world) =
  [EvPushString 1 "$2y$abc"; EvPush 1 42; EvPush 1 7; EvExec 1 0;
   EvRelease 1 0;
   EvPush 1 1; EvPush 1 43; EvPush 1 7; EvExec 1 1;
   EvPushString 2 "$2y$abc"; EvPush 2 42; EvPush 2 7; EvExec 2 0;
   EvRelease 2 0].
Proof. reflexivity. Qed.

Example demo_tick_queue :
  bcrypt_queue (exec_M (ProcessTick (host := demo_host)) demo_world) = [].
Proof. reflexivity. Qed.

(** The jobs of the example run and their results. *)
Example demo_jobs : running demo_w3 = [demo_job_hash; demo_job_check].
Proof. reflexivity. Qed.

Example demo_results : bcrypt_queue demo_w5 = [demo_hashed; demo_checked].
Proof. reflexivity. Qed.

(** A refused call and what it prints. *)
Example demo_refused :
  bcrypt_hash (host := demo_host) 1 (amx_params [7; 42; 100; 32]) boot =
  (0, {| p_Amx := []; bcrypt_queue := [];
         console := ["bcrypt error: Invalid work factor (cost). Allowed range: 4-31 (Called from bcrypt_hash)"%string];
         running := []; amx_trace := [] |}).
Proof. reflexivity. Qed.

(** Detaching the first of two equal entries of the registry. *)
Example demo_detach : erase_first 2 [1; 2; 3; 2] = [1; 3; 2].
Proof. reflexivity. Qed.

(** * The claims of the specification *)

(** ** The dispatcher *)

(** C2.  In a call of [bcrypt_hash] with four arguments, let [cost] be the
    work factor the native holds at line 53 (the fourth argument as an
    unsigned 16-bit integer).  If [cost] is below 4 or above 31 the call
    is refused: it returns [0], starts no thread and prints the
    work-factor diagnostic.  If [cost] is in 4..31 the call is accepted:
    it returns [1] with the hashing thread started and not yet finished
    (the queue is as before the call).  In particular the cells 3 and 32
    are refused, and the cells 4 and 31 are accepted. *)
Theorem bcrypt_hash_cost_bounds {host : AmxFunctions} {crypt : Bcrypt}
    (amx : AMX) (idx id pw c : cell) (w : world) :
  let call := fun x => bcrypt_hash amx (amx_params [idx; id; pw; x]) w in
  let work_factor := "Invalid work factor (cost). Allowed range: 4-31"%string in
  (to_ushort c < 4 \/ 31 < to_ushort c ->
   rejected "bcrypt_hash" work_factor w (call c)) /\
  (4 <= to_ushort c <= 31 ->
   accepted (Thread_generate idx id (string_param amx pw) (to_ushort c))
            w (call c)) /\
  rejected "bcrypt_hash" work_factor w (call 3) /\
  rejected "bcrypt_hash" work_factor w (call 32) /\
  accepted (Thread_generate idx id (string_param amx pw) 4) w (call 4) /\
  accepted (Thread_generate idx id (string_param amx pw) 31) w (call 31).
Proof.
  intros call work_factor. subst call work_factor.
  split; [| split; [| split; [| split; [| split]]]].
  - intros Hc. apply bcrypt_hash_bad_cost; [reflexivity | exact Hc].
  - intros Hc.
    apply (bcrypt_hash_good_cost amx (amx_params [idx; id; pw; c]) w);
      [reflexivity | exact Hc].
  - apply bcrypt_hash_bad_cost; [reflexivity | left; reflexivity].
  - apply bcrypt_hash_bad_cost; [reflexivity | right; reflexivity].
  - apply (bcrypt_hash_good_cost amx (amx_params [idx; id; pw; 4]) w);
      [reflexivity | split; discriminate].
  - apply (bcrypt_hash_good_cost amx (amx_params [idx; id; pw; 31]) w);
      [reflexivity | split; discriminate].
Qed.

Lemma bcrypt_hash_cost_bounds_witness :
  rejected "bcrypt_hash"
           "Invalid work factor (cost). Allowed range: 4-31" boot
           (bcrypt_hash (host := demo_host) 1 (amx_params [7; 42; 100; 2]) boot) /\
  accepted (Thread_generate 7 42 "abc" 10) boot
           (bcrypt_hash (host := demo_host) 1 (amx_params [7; 42; 100; 10]) boot).
Proof.
  split.
  - apply (proj1 (bcrypt_hash_cost_bounds
                    (host := demo_host) (crypt := demo_crypt) 1 7 42 100 2 boot)).
    left. reflexivity.
  - apply (proj1 (proj2 (bcrypt_hash_cost_bounds
                    (host := demo_host) (crypt := demo_crypt) 1 7 42 100 10 boot))).
    split; discriminate.
Defined.

(** C6.  A call of [bcrypt_hash] or [bcrypt_check] whose number of
    arguments is not 4 is refused with the diagnostic naming the native
    and the reason "Incorrect number of parameters (4 required)"; a call
    of [bcrypt_hash] with four arguments whose work factor is out of
    range is refused with the reason "Invalid work factor (cost). Allowed
    range: 4-31".  Refused means: the native returns [0], the console
    gains exactly that one line, no thread is started and the queue, the
    registry and the scripts are left alone. *)
Theorem malformed_request_rejected {host : AmxFunctions} {crypt : Bcrypt}
    (amx : AMX) (params : list cell) (w : world) :
  (amx_NumParams params <> 4 ->
   rejected "bcrypt_hash" "Incorrect number of parameters (4 required)" w
            (bcrypt_hash amx params w) /\
   rejected "bcrypt_check" "Incorrect number of parameters (4 required)" w
            (bcrypt_check amx params w)) /\
  (param 0 params = 4 * sizeof_cell ->
   to_ushort (param 4 params) < 4 \/ 31 < to_ushort (param 4 params) ->
   rejected "bcrypt_hash" "Invalid work factor (cost). Allowed range: 4-31" w
            (bcrypt_hash amx params w)).
Proof.
  split.
  - intros Hn. apply NumParams_arity in Hn. split.
    + apply bcrypt_hash_wrong_arity. exact Hn.
    + apply bcrypt_check_wrong_arity. exact Hn.
  - apply bcrypt_hash_bad_cost.
Qed.

Lemma malformed_request_rejected_witness :
  (rejected "bcrypt_hash" "Incorrect number of parameters (4 required)" boot
            (bcrypt_hash (host := demo_host) 1 (amx_params [7; 42; 100]) boot) /\
   rejected "bcrypt_check" "Incorrect number of parameters (4 required)" boot
            (bcrypt_check (host := demo_host) 1 (amx_params [7; 42; 100]) boot)) /\
  rejected "bcrypt_hash" "Invalid work factor (cost). Allowed range: 4-31" boot
           (bcrypt_hash (host := demo_host) 1 (amx_params [7; 42; 100; 32]) boot).
Proof.
  split.
  - apply (proj1 (malformed_request_rejected
                    (host := demo_host) (crypt := demo_crypt)
                    1 (amx_params [7; 42; 100]) boot)).
    discriminate.
  - apply (proj2 (malformed_request_rejected
                    (host := demo_host) (crypt := demo_crypt)
                    1 (amx_params [7; 42; 100; 32]) boot)).
    + reflexivity.
    + right. reflexivity.
Defined.

(** C7.  In a call with four arguments (and, for [bcrypt_hash], a work
    factor in 4..31), a string argument of length zero is no error: the
    call is accepted and the thread is started with the empty string in
    the place of that argument, whether it is the password of
    [bcrypt_hash], the password of [bcrypt_check] or the hash of
    [bcrypt_check]. *)
Theorem empty_string_accepted {host : AmxFunctions} {crypt : Bcrypt}
    (amx : AMX) (idx id pw x : cell) (w : world) :
  (amx_StrLen (amx_GetAddr amx pw) = 0 ->
   (4 <= to_ushort x <= 31 ->
    accepted (Thread_generate idx id "" (to_ushort x)) w
             (bcrypt_hash amx (amx_params [idx; id; pw; x]) w)) /\
   accepted (Thread_check idx id "" (string_param amx x)) w
            (bcrypt_check amx (amx_params [idx; id; pw; x]) w)) /\
  (amx_StrLen (amx_GetAddr amx x) = 0 ->
   accepted (Thread_check idx id (string_param amx pw) "") w
            (bcrypt_check amx (amx_params [idx; id; pw; x]) w)).
Proof.
  split.
  - intros Hlen. apply string_param_empty in Hlen. split.
    + intros Hc.
      pose proof (bcrypt_hash_good_cost
                    amx (amx_params [idx; id; pw; x]) w eq_refl Hc) as Hgood.
      unfold param, amx_params in Hgood. cbn [nth] in Hgood. rewrite Hlen in Hgood. exact Hgood.
    + pose proof (bcrypt_check_good
                    amx (amx_params [idx; id; pw; x]) w eq_refl) as Hgood.
      unfold param, amx_params in Hgood. cbn [nth] in Hgood. rewrite Hlen in Hgood. exact Hgood.
  - intros Hlen. apply string_param_empty in Hlen.
    pose proof (bcrypt_check_good
                  amx (amx_params [idx; id; pw; x]) w eq_refl) as Hgood.
    unfold param, amx_params in Hgood. cbn [nth] in Hgood. rewrite Hlen in Hgood. exact Hgood.
Qed.

Lemma empty_string_accepted_witness :
  accepted (Thread_generate 7 42 "" 10) boot
           (bcrypt_hash (host := demo_host) 1 (amx_params [7; 42; 0; 10]) boot) /\
  accepted (Thread_check 7 43 "abc" "") boot
           (bcrypt_check (host := demo_host) 1 (amx_params [7; 43; 100; 0]) boot).
Proof.
  split.
  - apply (proj1 (proj1 (empty_string_accepted
                    (host := demo_host) (crypt := demo_crypt)
                    1 7 42 0 10 boot) eq_refl)).
    split; discriminate.
  - apply (proj2 (empty_string_accepted
                    (host := demo_host) (crypt := demo_crypt)
                    1 7 43 100 0 boot) eq_refl).
Defined.

(** C10.  [bcrypt_hash] range-checks the fourth argument modulo 2^16: a
    call with four arguments is accepted exactly when the remainder of
    that cell modulo 65536 lies in 4..31, and the thread is started with
    that remainder as its cost.  So the cell 65540, whose remainder is 4,
    is accepted, and the cell -1, whose remainder is 65535, is refused. *)
Theorem bcrypt_hash_cost_modulo {host : AmxFunctions} {crypt : Bcrypt}
    (amx : AMX) (idx id pw c : cell) (w : world) :
  let call := fun x => bcrypt_hash amx (amx_params [idx; id; pw; x]) w in
  (4 <= c mod 65536 <= 31 ->
   accepted (Thread_generate idx id (string_param amx pw) (c mod 65536))
            w (call c)) /\
  (~ 4 <= c mod 65536 <= 31 ->
   fst (call c) = 0 /\ running (snd (call c)) = running w) /\
  to_ushort 65540 = 4 /\
  accepted (Thread_generate idx id (string_param amx pw) 4) w (call 65540) /\
  to_ushort (-1) = 65535 /\
  fst (call (-1)) = 0 /\ running (snd (call (-1))) = running w.
Proof.
  intros call. subst call.
  assert (Hbad : forall x, ~ 4 <= x mod 65536 <= 31 ->
            fst (bcrypt_hash amx (amx_params [idx; id; pw; x]) w) = 0 /\
            running (snd (bcrypt_hash amx (amx_params [idx; id; pw; x]) w))
            = running w).
  { intros x Hx.
    assert (Hr : rejected "bcrypt_hash"
                   "Invalid work factor (cost). Allowed range: 4-31" w
                   (bcrypt_hash amx (amx_params [idx; id; pw; x]) w)).
    { apply bcrypt_hash_bad_cost; [reflexivity |].
      change (to_ushort x < 4 \/ 31 < to_ushort x).
      unfold to_ushort. lia. }
    destruct Hr as (H0 & _ & Hrun & _). split; assumption. }
  split; [| split; [| split; [| split; [| split]]]].
  - intros Hc.
    apply (bcrypt_hash_good_cost amx (amx_params [idx; id; pw; c]) w);
      [reflexivity | exact Hc].
  - apply Hbad.
  - reflexivity.
  - apply (bcrypt_hash_good_cost amx (amx_params [idx; id; pw; 65540]) w);
      [reflexivity | split; discriminate].
  - reflexivity.
  - apply Hbad. change ((-1) mod 65536) with 65535. lia.
Qed.

Lemma bcrypt_hash_cost_modulo_witness :
  accepted (Thread_generate 7 42 "abc" 31) boot
           (bcrypt_hash (host := demo_host) 1
                        (amx_params [7; 42; 100; 131103]) boot) /\
  fst (bcrypt_hash (host := demo_host) 1
                   (amx_params [7; 42; 100; -65533]) boot) = 0.
Proof.
  split.
  - apply (proj1 (bcrypt_hash_cost_modulo
                    (host := demo_host) (crypt := demo_crypt)
                    1 7 42 100 131103 boot)).
    split; discriminate.
  - apply (proj1 (proj2 (bcrypt_hash_cost_modulo
                    (host := demo_host) (crypt := demo_crypt)
                    1 7 42 100 (-65533) boot))).
    intros [H _]. apply H. reflexivity.
Defined.

(** ** The workers *)

(** C4.  [thread_generate_bcrypt] appends one item of type HASH that
    carries the digest of its buffer in [hash] and [false] in [match];
    [thread_check_bcrypt] appends one item of type CHECK that carries the
    empty string in [hash] and the outcome of the comparison in [match];
    both copy [thread_idx] and [thread_id] from their arguments.  Hence
    whenever a step of a run appends to the queue, it appends exactly one
    item, which has this shape for one of the threads that were running. *)
Theorem result_record_shape {host : AmxFunctions} {crypt : Bcrypt} :
  (forall idx id buffer cost w,
     bcrypt_queue (exec_M (thread_generate_bcrypt idx id buffer cost) w) =
     bcrypt_queue w ++
       [{| type := BCRYPT_QUEUE_HASH; thread_idx := idx; thread_id := id;
           hash := bcrypt_generate cost "2y" buffer; match_ := false |}]) /\
  (forall idx id password hash_ w,
     bcrypt_queue (exec_M (thread_check_bcrypt idx id password hash_) w) =
     bcrypt_queue w ++
       [{| type := BCRYPT_QUEUE_CHECK; thread_idx := idx; thread_id := id;
           hash := ""; match_ := bcrypt_compare password hash_ |}]) /\
  (forall s items s',
     step s (LPush items) s' ->
     exists job r,
       In job (running (fst s)) /\
       items = [r] /\
       bcrypt_queue (fst s') = bcrypt_queue (fst s) ++ [r] /\
       match job with
       | Thread_generate idx id buffer cost =>
           type r = BCRYPT_QUEUE_HASH /\
           thread_idx r = idx /\ thread_id r = id /\
           hash r = bcrypt_generate cost "2y" buffer /\ match_ r = false
       | Thread_check idx id password hash_ =>
           type r = BCRYPT_QUEUE_CHECK /\
           thread_idx r = idx /\ thread_id r = id /\
           hash r = ""%string /\ match_ r = bcrypt_compare password hash_
       end).
Proof.
  split; [| split].
  - reflexivity.
  - reflexivity.
  - intros s items s' Hstep.
    inversion Hstep as [w pc before t after w' Hrun Hw' | | | | | | | |]; subst.
    exists t, (result_of t). simpl.
    unfold exec_M. rewrite run_thread_eq. simpl.
    rewrite skipn_app, skipn_all, Nat.sub_diag. simpl.
    split; [| split; [| split]].
    + rewrite Hrun. apply in_or_app. right. left. reflexivity.
    + reflexivity.
    + reflexivity.
    + destruct t; simpl; repeat split; reflexivity.
Qed.

(** The hash worker of the example run finishes. *)
Lemma demo_step_worker :
  step (host := demo_host) (crypt := demo_crypt)
       (demo_w3, Idle) (LPush [demo_hashed]) (demo_w4, Idle).
Proof.
  exact (step_worker (host := demo_host) (crypt := demo_crypt)
           demo_w3 Idle [] demo_job_hash [demo_job_check] demo_w4
           eq_refl eq_refl).
Qed.

Lemma result_record_shape_witness :
  exists job r,
    In job (running demo_w3) /\
    [demo_hashed] = [r] /\
    bcrypt_queue demo_w4 = bcrypt_queue demo_w3 ++ [r] /\
    match job with
    | Thread_generate idx id buffer cost =>
        type r = BCRYPT_QUEUE_HASH /\
        thread_idx r = idx /\ thread_id r = id /\
        hash r = bcrypt_generate (Bcrypt := demo_crypt) cost "2y" buffer /\
        match_ r = false
    | Thread_check idx id password hash_ =>
        type r = BCRYPT_QUEUE_CHECK /\
        thread_idx r = idx /\ thread_id r = id /\
        hash r = ""%string /\
        match_ r = bcrypt_compare (Bcrypt := demo_crypt) password hash_
    end.
Proof.
  exact (proj2 (proj2 (result_record_shape
                         (host := demo_host) (crypt := demo_crypt)))
               (demo_w3, Idle) [demo_hashed] (demo_w4, Idle)
               demo_step_worker).
Defined.

(** ** The drain loop *)

(** C3.  A drain cycle over a non-empty queue is a broadcast.  The public
    functions it executes are those of offering every queued item to
    every registered script: for a script and an item, one execution if
    the script has the public function for the type of the item, none
    otherwise, and the cycle goes on in either case; the [thread_idx] of
    the item plays no part in the choice.  The calls that hand an item to
    a script that has the function are all made.  With a single item
    queued and every registered script implementing its callback there
    are as many executions as registered scripts. *)
Theorem drain_broadcast {host : AmxFunctions} {crypt : Bcrypt} (w : world) :
  bcrypt_queue w <> [] ->
  let calls := new_calls w (exec_M ProcessTick w) in
  invocations calls =
    flat_map (fun a => flat_map (invocation a) (bcrypt_queue w)) (p_Amx w) /\
  (forall a t, In a (p_Amx w) -> In t (bcrypt_queue w) ->
               implements a t = true -> incl (callback a t) calls) /\
  (forall a t idx,
     invocation a {| type := type t; thread_idx := idx;
                     thread_id := thread_id t; hash := hash t;
                     match_ := match_ t |} = invocation a t) /\
  (forall t, bcrypt_queue w = [t] ->
             (forall a, In a (p_Amx w) -> implements a t = true) ->
             length (invocations calls) = length (p_Amx w)).
Proof.
  intros Hq calls. subst calls. rewrite ProcessTick_calls.
  split; [| split; [| split]].
  - unfold cycle_calls. apply invocations_cycle.
  - intros a t Ha Ht Himpl.
    replace (callback a t) with (offer a t)
      by (unfold offer; rewrite Himpl; reflexivity).
    apply offer_in_cycle; assumption.
  - intros a t idx. reflexivity.
  - intros t Hone Hall. unfold cycle_calls.
    rewrite invocations_cycle, Hone. apply fan_out_length. exact Hall.
Qed.

Lemma drain_broadcast_witness :
  invocations
    (new_calls demo_world (exec_M (ProcessTick (host := demo_host)) demo_world))
  = [(1, 0); (1, 1); (2, 0)].
Proof.
  exact (proj1 (drain_broadcast (host := demo_host) (crypt := demo_crypt)
                  demo_world ltac:(discriminate))).
Defined.

(** C5.  The calls of a drain cycle are a function of the registry and of
    the queue alone: script after script in the order of the registry,
    and for each script item after item in the order of the queue, the
    calls that offer that item to that script.  Two worlds that agree on
    the registry and on the queue see the same calls. *)
Theorem drain_order {host : AmxFunctions} {crypt : Bcrypt} (w : world) :
  new_calls w (exec_M ProcessTick w) =
    flat_map (fun a => flat_map (offer a) (bcrypt_queue w)) (p_Amx w) /\
  (forall w2, p_Amx w2 = p_Amx w -> bcrypt_queue w2 = bcrypt_queue w ->
              new_calls w2 (exec_M ProcessTick w2) =
              new_calls w (exec_M ProcessTick w)).
Proof.
  split.
  - apply ProcessTick_calls.
  - intros w2 Hreg Hq. rewrite !ProcessTick_calls.
    unfold cycle_calls. rewrite Hreg, Hq. reflexivity.
Qed.

Lemma drain_order_witness :
  new_calls (add_calls [EvPush 9 9] demo_world)
            (exec_M (ProcessTick (host := demo_host))
                    (add_calls [EvPush 9 9] demo_world)) =
  new_calls demo_world (exec_M (ProcessTick (host := demo_host)) demo_world).
Proof.
  exact (proj2 (drain_order (host := demo_host) (crypt := demo_crypt)
                  demo_world)
               (add_calls [EvPush 9 9] demo_world) eq_refl eq_refl).
Defined.

(** C8.  [ProcessTick] on an empty queue does nothing: it executes no
    public function and leaves the queue, the registry and all the rest
    of the state as they were. *)
Theorem drain_empty_queue {host : AmxFunctions} {crypt : Bcrypt} (w : world) :
  bcrypt_queue w = [] ->
  ProcessTick w = (tt, w) /\
  invocations (new_calls w (exec_M ProcessTick w)) = [] /\
  new_calls w (exec_M ProcessTick w) = [] /\
  bcrypt_queue (exec_M ProcessTick w) = bcrypt_queue w /\
  p_Amx (exec_M ProcessTick w) = p_Amx w.
Proof.
  intros Hq. pose proof (ProcessTick_empty w Hq) as Hnop.
  unfold exec_M. rewrite Hnop. simpl.
  rewrite new_calls_same. repeat split; reflexivity.
Qed.

Lemma drain_empty_queue_witness :
  ProcessTick (host := demo_host) (set_bcrypt_queue [] demo_world) =
  (tt, set_bcrypt_queue [] demo_world).
Proof.
  exact (proj1 (drain_empty_queue (host := demo_host) (crypt := demo_crypt)
                  (set_bcrypt_queue [] demo_world) eq_refl)).
Defined.

(** C9.  [ProcessTick] on a non-empty queue with no script registered
    clears the queue and calls nothing.  The items it found are gone for
    good: in any run that follows, what the drain cycles find, together
    with what is left queued at the end, is exactly what workers appended
    during that run. *)
Theorem drain_without_scripts {host : AmxFunctions} {crypt : Bcrypt}
    (w : world) :
  bcrypt_queue w <> [] ->
  p_Amx w = [] ->
  let w' := exec_M ProcessTick w in
  bcrypt_queue w' = [] /\
  new_calls w w' = [] /\
  amx_trace w' = amx_trace w /\
  (forall tr s', run (w', Idle) tr s' ->
                 concat (drained tr) ++ bcrypt_queue (fst s') = pushed tr).
Proof.
  intros Hq Hreg w'. subst w'.
  assert (Hcalls : cycle_calls w = [])
    by (unfold cycle_calls; rewrite Hreg; reflexivity).
  split; [| split; [| split]].
  - unfold exec_M. rewrite ProcessTick_nonempty by exact Hq. reflexivity.
  - rewrite ProcessTick_calls. exact Hcalls.
  - unfold exec_M. rewrite ProcessTick_nonempty by exact Hq.
    rewrite Hcalls. simpl. apply app_nil_r.
  - intros tr s' Hrun. apply run_conservation in Hrun.
    simpl in Hrun. unfold exec_M in Hrun.
    rewrite ProcessTick_nonempty in Hrun by exact Hq.
    simpl in Hrun. symmetry. exact Hrun.
Qed.

Lemma drain_without_scripts_witness :
  bcrypt_queue (exec_M (ProcessTick (host := demo_host)) demo_unattended) = [] /\
  new_calls demo_unattended
            (exec_M (ProcessTick (host := demo_host)) demo_unattended) = [].
Proof.
  pose proof (drain_without_scripts (host := demo_host) (crypt := demo_crypt)
                demo_unattended ltac:(discriminate) eq_refl) as H.
  exact (conj (proj1 H) (proj1 (proj2 H))).
Defined.

(** ** The queue between the workers and the drain loop *)

(** The example run. *)
Lemma demo_run :
  run (host := demo_host) (crypt := demo_crypt)
      (boot, Idle) demo_trace (demo_w6, Idle).
Proof.
  unfold demo_trace.
  eapply run_cons; [exact (step_AmxLoad boot 1) |].
  eapply run_cons;
    [exact (step_bcrypt_hash demo_w1 1 (amx_params [7; 42; 100; 10])) |].
  eapply run_cons;
    [exact (step_bcrypt_check demo_w2 1 (amx_params [7; 43; 100; 200])) |].
  eapply run_cons; [exact demo_step_worker |].
  eapply run_cons; [exact (step_tick_enter demo_w4 eq_refl) |].
  eapply run_cons;
    [exact (step_worker demo_w4 Entered [] demo_job_check [] demo_w5
              eq_refl eq_refl) |].
  eapply run_cons; [exact (step_tick_drain demo_w5) |].
  apply run_nil.
Qed.

(** C1.  Every item appended to the queue is found by exactly one drain
    cycle.  In a run from the start of the plugin:
    - the items workers appended, in order, are the items the successive
      drain cycles found, cycle after cycle, followed by the items still
      queued: each appended item sits in one cycle or is still pending,
      none is missing and none is there twice;
    - whatever is queued now is found, in place, by the next drain cycle
      to come, together with what workers append before that cycle takes
      the mutex, and no tick returns at line 178 before it; an item
      appended while a tick holds the mutex lands in the queue after that
      tick has cleared it, so this applies to it from then on;
    - a cycle offers the queue it found to every registered script and
      leaves the queue empty. *)
Theorem drain_exactly_once {host : AmxFunctions} {crypt : Bcrypt}
    (tr : list label) (s : system) :
  run (boot, Idle) tr s ->
  pushed tr = concat (drained tr) ++ bcrypt_queue (fst s) /\
  (forall tr' s',
     run s tr' s' ->
     (bcrypt_queue (fst s) <> [] -> ~ In LTickSkip (until_drain tr')) /\
     match first_drain tr' with
     | Some batch => batch = bcrypt_queue (fst s) ++ pushed (until_drain tr')
     | None => bcrypt_queue (fst s') = bcrypt_queue (fst s) ++ pushed tr'
     end) /\
  (forall w pc batch s',
     step (w, pc) (LDrain batch) s' ->
     batch = bcrypt_queue w /\
     new_calls w (fst s') =
       flat_map (fun a => flat_map (offer a) batch) (p_Amx w) /\
     bcrypt_queue (fst s') = []).
Proof.
  intros Hrun. split; [| split].
  - apply run_conservation in Hrun. simpl in Hrun. exact Hrun.
  - intros tr' s' Hnext. apply run_next_cycle. exact Hnext.
  - intros w pc batch s' Hstep.
    pose proof (step_queue _ _ _ Hstep) as [Hbatch Hclear].
    split; [exact Hbatch |]. split; [| exact Hclear].
    eapply step_drain_calls. exact Hstep.
Qed.

Lemma drain_exactly_once_witness :
  pushed demo_trace =
  concat (drained demo_trace) ++ bcrypt_queue (fst (demo_w6, Idle)).
Proof.
  exact (proj1 (drain_exactly_once (host := demo_host) (crypt := demo_crypt)
                  demo_trace (demo_w6, Idle) demo_run)).
Defined.

(** * Further properties of the code *)

(** ** The registry: [AmxLoad], [AmxUnload], [Unload] *)

Lemma set_p_Amx_same w : set_p_Amx (p_Amx w) w = w.
Proof. destruct w. reflexivity. Qed.

Lemma erase_first_absent amx l : ~ In amx l -> erase_first amx l = l.
Proof.
  induction l as [| i l IH]; intros Hout; simpl; [reflexivity |].
  destruct (Z.eqb_spec i amx) as [Heq | Hne].
  - exfalso. apply Hout. left. exact Heq.
  - rewrite IH; [reflexivity |]. intros Hin. apply Hout. right. exact Hin.
Qed.

Lemma erase_first_split amx l :
  In amx l ->
  exists l1 l2, l = l1 ++ amx :: l2 /\ ~ In amx l1 /\
                erase_first amx l = l1 ++ l2.
Proof.
  induction l as [| i l IH]; intros Hin; [destruct Hin |].
  simpl. destruct (Z.eqb_spec i amx) as [Heq | Hne].
  - subst i. exists [], l.
    split; [reflexivity | split; [intros [] | reflexivity]].
  - destruct Hin as [Heq | Hin]; [contradiction |].
    destruct (IH Hin) as (l1 & l2 & Hl & Hout & Herase).
    exists (i :: l1), l2. split; [| split].
    + rewrite Hl. reflexivity.
    + intros [Heq | Hin1]; [contradiction | exact (Hout Hin1)].
    + rewrite Herase. reflexivity.
Qed.



Lemma count_occ_erase_first amx b l :
  count_occ Z.eq_dec (erase_first amx l) b =
  if Z.eq_dec amx b then Nat.pred (count_occ Z.eq_dec l amx)
  else count_occ Z.eq_dec l b.
Proof.
  induction l as [| i l IH]; simpl.
  - destruct (Z.eq_dec amx b); reflexivity.
  - destruct (Z.eqb_spec i amx) as [Heq | Hne].
    + subst i. destruct (Z.eq_dec amx b) as [Hab | Hab].
      * subst b. destruct (Z.eq_dec amx amx); [reflexivity | contradiction].
      * destruct (Z.eq_dec amx b); [contradiction | reflexivity].
    + simpl. rewrite IH.
      destruct (Z.eq_dec amx b) as [Hab | Hab].
      * subst b. destruct (Z.eq_dec i amx); [contradiction | reflexivity].
      * destruct (Z.eq_dec i b); reflexivity.
Qed.

(** X1.  Detaching a script that is not registered changes nothing and
    still reports success ([AMX_ERR_NONE]). *)
Theorem AmxUnload_not_registered (amx : AMX) (w : world) :
  ~ In amx (p_Amx w) -> AmxUnload amx w = (0, w).
Proof.
  intros Hout. unfold AmxUnload, bind, ret.
  rewrite erase_first_absent by exact Hout.
  rewrite set_p_Amx_same. reflexivity.
Qed.

Lemma AmxUnload_not_registered_witness :
  AmxUnload 5 demo_world = (0, demo_world).
Proof.
  apply (AmxUnload_not_registered 5 demo_world).
  simpl. intros [H | [H | [H | []]]]; discriminate H.
Defined.



(** X3.  Detaching a registered script removes its first entry and
    nothing else: the entries before and after it keep their order, and
    the queue, the running threads, the console and the calls made so far
    are untouched. *)
Theorem AmxUnload_first_entry (amx : AMX) (w : world) :
  In amx (p_Amx w) ->
  exists l1 l2,
    p_Amx w = l1 ++ amx :: l2 /\ ~ In amx l1 /\
    AmxUnload amx w = (0, set_p_Amx (l1 ++ l2) w).
Proof.
  intros Hin. destruct (erase_first_split amx (p_Amx w) Hin)
    as (l1 & l2 & Hl & Hout & Herase).
  exists l1, l2. split; [exact Hl |]. split; [exact Hout |].
  unfold AmxUnload, bind, ret. rewrite Herase. reflexivity.
Qed.

Lemma AmxUnload_first_entry_witness :
  exists l1 l2,
    p_Amx demo_twice = l1 ++ 2 :: l2 /\ ~ In 2 l1 /\
    AmxUnload 2 demo_twice = (0, set_p_Amx (l1 ++ l2) demo_twice).
Proof.
  apply (AmxUnload_first_entry 2 demo_twice).
  right. left. reflexivity.
Defined.

(** X4.  Detaching a script lowers the number of its entries in the
    registry by one (not below zero) and leaves the number of entries of
    every other script as it was.  So a script attached twice and
    detached once is still registered. *)
Theorem AmxUnload_count (amx b : AMX) (w : world) :
  count_occ Z.eq_dec (p_Amx (exec_M (AmxUnload amx) w)) b =
  (if Z.eq_dec amx b then Nat.pred (count_occ Z.eq_dec (p_Amx w) amx)
   else count_occ Z.eq_dec (p_Amx w) b) /\
  ((2 <= count_occ Z.eq_dec (p_Amx w) amx)%nat ->
   In amx (p_Amx (exec_M (AmxUnload amx) w))).
Proof.
  split.
  - apply count_occ_erase_first.
  - intros Htwice. apply (count_occ_In Z.eq_dec).
    unfold exec_M, AmxUnload, bind, ret. simpl.
    rewrite count_occ_erase_first.
    destruct (Z.eq_dec amx amx); [lia | contradiction].
Qed.

Lemma AmxUnload_count_witness :
  In 2 (p_Amx (exec_M (AmxUnload 2) demo_twice)).
Proof.
  apply (proj2 (AmxUnload_count 2 2 demo_twice)).
  simpl. lia.
Defined.

(** ** The drain loop, further *)

Section CycleLemmas.

Context {host : AmxFunctions} {crypt : Bcrypt}.

Lemma offer_event_amx a t e : In e (offer a t) -> event_amx e = a.
Proof.
  unfold offer, callback. destruct (implements a t); [| intros []].
  destruct (type t); simpl; intros Hin;
    repeat (destruct Hin as [<- | Hin]; [reflexivity |]); destruct Hin.
Qed.

Lemma cycle_calls_registered w e :
  In e (cycle_calls w) -> In (event_amx e) (p_Amx w).
Proof.
  unfold cycle_calls. intros Hin.
  apply in_flat_map in Hin. destruct Hin as (a & Ha & Hin).
  apply in_flat_map in Hin. destruct Hin as (t & _ & Hin).
  rewrite (offer_event_amx a t e Hin). exact Ha.
Qed.

Lemma invocation_found a t c :
  In c (invocation a t) ->
  fst c = a /\ amx_FindPublic a (callback_name t) = (0, snd c).
Proof.
  unfold invocation, implements.
  destruct (amx_FindPublic a (callback_name t)) as [err index]. simpl.
  destruct (Z.eqb_spec err 0) as [-> | _]; [| intros []].
  intros [<- | []]. split; reflexivity.
Qed.

Lemma invocation_filter (a b : AMX) t :
  filter (fun c : AMX * Z => fst c =? a) (invocation b t) =
  if b =? a then invocation b t else [].
Proof.
  unfold invocation. destruct (implements b t); simpl.
  - destruct (b =? a); reflexivity.
  - destruct (b =? a); reflexivity.
Qed.

Lemma invocation_inner_filter (a b : AMX) q :
  filter (fun c : AMX * Z => fst c =? a) (flat_map (invocation b) q) =
  if b =? a then flat_map (invocation b) q else [].
Proof.
  induction q as [| t q IH]; cbn [flat_map].
  - destruct (b =? a); reflexivity.
  - rewrite filter_app, invocation_filter, IH.
    destruct (b =? a); reflexivity.
Qed.

Lemma invocation_inner_length a q :
  length (flat_map (invocation a) q) = length (filter (implements a) q).
Proof.
  induction q as [| t q IH]; simpl; [reflexivity |].
  rewrite length_app, IH. unfold invocation.
  destruct (implements a t); reflexivity.
Qed.

Lemma executions_on_cycle (a : AMX) (l : list AMX) q :
  length (filter (fun c : AMX * Z => fst c =? a)
                 (flat_map (fun b => flat_map (invocation b) q) l)) =
  (count_occ Z.eq_dec l a * length (filter (implements a) q))%nat.
Proof.
  induction l as [| b l IH]; [reflexivity |].
  cbn [flat_map count_occ].
  rewrite filter_app, length_app, IH, invocation_inner_filter.
  destruct (Z.eqb_spec b a) as [-> | Hne].
  - destruct (Z.eq_dec a a); [| contradiction].
    rewrite invocation_inner_length. simpl. reflexivity.
  - destruct (Z.eq_dec b a); [contradiction | reflexivity].
Qed.

Lemma invocation_inner_bound a q :
  (length (flat_map (invocation a) q) <= length q)%nat.
Proof.
  rewrite invocation_inner_length. apply filter_length_le.
Qed.

Lemma invocation_cycle_bound l q :
  (length (flat_map (fun a => flat_map (invocation a) q) l)
   <= length l * length q)%nat.
Proof.
  induction l as [| a l IH]; simpl; [apply Nat.le_refl |].
  rewrite length_app. pose proof (invocation_inner_bound a q). lia.
Qed.

Lemma allotted_app evs1 evs2 :
  allotted (evs1 ++ evs2) = allotted evs1 ++ allotted evs2.
Proof. unfold allotted. apply flat_map_app. Qed.

Lemma released_app evs1 evs2 :
  released (evs1 ++ evs2) = released evs1 ++ released evs2.
Proof. unfold released. apply flat_map_app. Qed.

Lemma pushes_app evs1 evs2 : pushes (evs1 ++ evs2) = pushes evs1 ++ pushes evs2.
Proof. unfold pushes. apply filter_app. Qed.

Lemma offer_balanced a t :
  allotted (offer a t) = released (offer a t) /\
  length (pushes (offer a t)) = (3 * length (invocations (offer a t)))%nat.
Proof.
  unfold offer, callback. destruct (implements a t); [| split; reflexivity].
  destruct (type t); split; reflexivity.
Qed.

Lemma inner_balanced a q :
  allotted (flat_map (offer a) q) = released (flat_map (offer a) q) /\
  length (pushes (flat_map (offer a) q)) =
  (3 * length (invocations (flat_map (offer a) q)))%nat.
Proof.
  induction q as [| t q [IH1 IH2]]; simpl; [split; reflexivity |].
  destruct (offer_balanced a t) as [H1 H2].
  rewrite allotted_app, released_app, pushes_app, invocations_app.
  rewrite !length_app, H1, IH1, H2, IH2. split; [reflexivity | lia].
Qed.

Lemma cycle_balanced w :
  allotted (cycle_calls w) = released (cycle_calls w) /\
  length (pushes (cycle_calls w)) =
  (3 * length (invocations (cycle_calls w)))%nat.
Proof.
  unfold cycle_calls.
  induction (p_Amx w) as [| a l [IH1 IH2]]; simpl; [split; reflexivity |].
  destruct (inner_balanced a (bcrypt_queue w)) as [H1 H2].
  rewrite allotted_app, released_app, pushes_app, invocations_app.
  rewrite !length_app, H1, IH1, H2, IH2. split; [reflexivity | lia].
Qed.

(** The world [ProcessTick] leaves. *)
Lemma ProcessTick_world w :
  exec_M ProcessTick w = set_bcrypt_queue [] (add_calls (cycle_calls w) w).
Proof.
  destruct (bcrypt_queue w) as [| t q] eqn:Hq.
  - unfold exec_M. rewrite ProcessTick_empty by exact Hq.
    rewrite cycle_calls_empty_queue by exact Hq. rewrite add_calls_nil.
    destruct w. simpl in *. subst. reflexivity.
  - unfold exec_M. rewrite ProcessTick_nonempty by (rewrite Hq; discriminate).
    reflexivity.
Qed.

End CycleLemmas.

(** X5.  A drain cycle calls registered scripts only, and every public
    function it executes is justified: the script is registered, some
    queued item has the type the function is for, and [amx_FindPublic]
    found the function, with no error, at the index executed. *)
Theorem drain_calls_justified {host : AmxFunctions} {crypt : Bcrypt}
    (w : world) :
  let calls := new_calls w (exec_M ProcessTick w) in
  (forall e, In e calls -> In (event_amx e) (p_Amx w)) /\
  (forall a index,
     In (a, index) (invocations calls) ->
     In a (p_Amx w) /\
     exists t, In t (bcrypt_queue w) /\
               amx_FindPublic a (callback_name t) = (0, index)).
Proof.
  intros calls. subst calls. rewrite ProcessTick_calls. split.
  - intros e. apply cycle_calls_registered.
  - intros a index Hin. unfold cycle_calls in Hin.
    rewrite invocations_cycle in Hin.
    apply in_flat_map in Hin. destruct Hin as (b & Hb & Hin).
    apply in_flat_map in Hin. destruct Hin as (t & Ht & Hin).
    apply invocation_found in Hin. simpl in Hin. destruct Hin as [<- Hfound].
    split; [exact Hb |]. exists t. split; assumption.
Qed.

Lemma drain_calls_justified_witness :
  In 2 (p_Amx demo_world) /\
  exists t, In t (bcrypt_queue demo_world) /\
            amx_FindPublic (AmxFunctions := demo_host) 2 (callback_name t)
            = (0, 0).
Proof.
  apply (proj2 (drain_calls_justified
                  (host := demo_host) (crypt := demo_crypt) demo_world) 2 0).
  simpl. right. right. left. reflexivity.
Defined.

(** X6.  In one drain cycle a script is executed once per entry it has in
    the registry and per queued item whose callback it implements: the
    number of executions on the script is the product of the two counts.
    The registry is not deduplicated, so a script attached twice gets
    every item twice. *)
Theorem drain_executions_per_script {host : AmxFunctions} {crypt : Bcrypt}
    (a : AMX) (w : world) :
  length (executions_on a (new_calls w (exec_M ProcessTick w))) =
  (count_occ Z.eq_dec (p_Amx w) a *
   length (filter (implements a) (bcrypt_queue w)))%nat.
Proof.
  rewrite ProcessTick_calls. unfold executions_on, cycle_calls.
  rewrite invocations_cycle. apply executions_on_cycle.
Qed.

(** X7.  A drain cycle executes at most one public function per pair of
    a registry entry and a queued item, and it pushes exactly three
    arguments for each execution. *)
Theorem drain_calls_bound {host : AmxFunctions} {crypt : Bcrypt} (w : world) :
  let calls := new_calls w (exec_M ProcessTick w) in
  (length (invocations calls) <= length (p_Amx w) * length (bcrypt_queue w))%nat
  /\ length (pushes calls) = (3 * length (invocations calls))%nat.
Proof.
  intros calls. subst calls. rewrite ProcessTick_calls. split.
  - unfold cycle_calls. rewrite invocations_cycle.
    apply invocation_cycle_bound.
  - apply cycle_balanced.
Qed.

(** X8.  A drain cycle releases every heap cell it obtained from
    [amx_PushString]: the cells handed out and the cells released are the
    same, script by script and in the same order, so a cycle leaves no
    string behind on the heap of a script. *)
Theorem drain_heap_balanced {host : AmxFunctions} {crypt : Bcrypt}
    (w : world) :
  allotted (new_calls w (exec_M ProcessTick w)) =
  released (new_calls w (exec_M ProcessTick w)).
Proof. rewrite ProcessTick_calls. apply cycle_balanced. Qed.


(** X10.  [Unload] empties the registry and prints one line, and that is
    all: the threads still running keep running and the queued items
    stay queued.  The tick after it finds no script to call and throws
    the queued items away. *)
Theorem Unload_then_tick {host : AmxFunctions} {crypt : Bcrypt} (w : world) :
  let w1 := exec_M Unload w in
  let w2 := exec_M ProcessTick w1 in
  p_Amx w1 = [] /\
  console w1 = console w ++ ["plugin.bcrypt: Plugin unloaded."%string] /\
  running w1 = running w /\
  bcrypt_queue w1 = bcrypt_queue w /\
  amx_trace w2 = amx_trace w /\
  bcrypt_queue w2 = [] /\
  running w2 = running w.
Proof.
  intros w1 w2. subst w1 w2. rewrite ProcessTick_world.
  unfold cycle_calls. simpl. rewrite app_nil_r.
  split; [reflexivity |]. split; [reflexivity |]. split; [reflexivity |].
  split; [reflexivity |]. split; [reflexivity |]. split; reflexivity.
Qed.

(** ** The natives, further *)

Section NativeCases.

Context {host : AmxFunctions} {crypt : Bcrypt}.

(** The three ways [bcrypt_hash] can go. *)
Lemma bcrypt_hash_cases amx params w :
  (param 0 params <> 4 * sizeof_cell /\
   rejected "bcrypt_hash" "Incorrect number of parameters (4 required)" w
            (bcrypt_hash amx params w)) \/
  (param 0 params = 4 * sizeof_cell /\
   ~ 4 <= to_ushort (param 4 params) <= 31 /\
   rejected "bcrypt_hash" "Invalid work factor (cost). Allowed range: 4-31" w
            (bcrypt_hash amx params w)) \/
  (param 0 params = 4 * sizeof_cell /\
   4 <= to_ushort (param 4 params) <= 31 /\
   accepted (Thread_generate (param 1 params) (param 2 params)
                             (string_param amx (param 3 params))
                             (to_ushort (param 4 params)))
            w (bcrypt_hash amx params w)).
Proof.
  destruct (Z.eq_dec (param 0 params) (4 * sizeof_cell)) as [Ha | Ha].
  - destruct (Z_lt_dec (to_ushort (param 4 params)) 4) as [Hlo | Hlo].
    + right. left. split; [exact Ha |]. split; [lia |].
      apply bcrypt_hash_bad_cost; [exact Ha | left; exact Hlo].
    + destruct (Z_lt_dec 31 (to_ushort (param 4 params))) as [Hhi | Hhi].
      * right. left. split; [exact Ha |]. split; [lia |].
        apply bcrypt_hash_bad_cost; [exact Ha | right; exact Hhi].
      * right. right. split; [exact Ha |]. split; [lia |].
        apply bcrypt_hash_good_cost; [exact Ha | lia].
  - left. split; [exact Ha |]. apply bcrypt_hash_wrong_arity. exact Ha.
Qed.

(** The two ways [bcrypt_check] can go. *)
Lemma bcrypt_check_cases amx params w :
  (param 0 params <> 4 * sizeof_cell /\
   rejected "bcrypt_check" "Incorrect number of parameters (4 required)" w
            (bcrypt_check amx params w)) \/
  (param 0 params = 4 * sizeof_cell /\
   accepted (Thread_check (param 1 params) (param 2 params)
                          (string_param amx (param 3 params))
                          (string_param amx (param 4 params)))
            w (bcrypt_check amx params w)).
Proof.
  destruct (Z.eq_dec (param 0 params) (4 * sizeof_cell)) as [Ha | Ha].
  - right. split; [exact Ha |]. apply bcrypt_check_good. exact Ha.
  - left. split; [exact Ha |]. apply bcrypt_check_wrong_arity. exact Ha.
Qed.

End NativeCases.

(** X11.  Each native returns [1] or [0] and nothing else.  [bcrypt_hash]
    returns [1] exactly when [params[0]] is the size of four cells and
    the 16-bit cost is in 4..31; [bcrypt_check] returns [1] exactly when
    [params[0]] is the size of four cells, whatever the two strings are.
    A call that returns [1] has started one thread and printed nothing; a
    call that returns [0] has printed one line and started nothing. *)
Theorem native_outcomes {host : AmxFunctions} {crypt : Bcrypt}
    (amx : AMX) (params : list cell) (w : world) :
  let h := bcrypt_hash amx params w in
  let c := bcrypt_check amx params w in
  (fst h = 1 <->
   param 0 params = 4 * sizeof_cell /\
   4 <= to_ushort (param 4 params) <= 31) /\
  (fst c = 1 <-> param 0 params = 4 * sizeof_cell) /\
  ((exists t, accepted t w h) \/
   (exists error, rejected "bcrypt_hash" error w h)) /\
  ((exists t, accepted t w c) \/
   (exists error, rejected "bcrypt_check" error w c)).
Proof.
  intros h c. subst h c.
  destruct (bcrypt_hash_cases amx params w)
    as [[Ha Hr] | [(Ha & Hc & Hr) | (Ha & Hc & Hr)]];
  destruct (bcrypt_check_cases amx params w) as [[Ha' Hr'] | [Ha' Hr']];
  try contradiction;
  (split; [| split; [| split]]).
  - destruct Hr as [H0 _]. rewrite H0.
    split; [discriminate | intros [Hx _]; contradiction].
  - destruct Hr' as [H0 _]. rewrite H0.
    split; [discriminate | intros Hx; contradiction].
  - right. eexists. exact Hr.
  - right. eexists. exact Hr'.
  - destruct Hr as [H0 _]. rewrite H0.
    split; [discriminate | intros [_ Hx]; contradiction].
  - destruct Hr' as [H1 _]. rewrite H1. split; [intros _; exact Ha | reflexivity].
  - right. eexists. exact Hr.
  - left. eexists. exact Hr'.
  - destruct Hr as [H1 _]. rewrite H1.
    split; [intros _; split; assumption | reflexivity].
  - destruct Hr' as [H1 _]. rewrite H1. split; [intros _; exact Ha | reflexivity].
  - left. eexists. exact Hr.
  - left. eexists. exact Hr'.
Qed.

Lemma native_outcomes_witness :
  fst (bcrypt_check (host := demo_host) 1 (amx_params [7; 43; 0; 0]) boot) = 1
  /\ fst (bcrypt_hash (host := demo_host) 1 [17; 7; 42; 100; 10] boot) <> 1.
Proof.
  split.
  - apply (proj2 (proj1 (proj2 (native_outcomes
                    (host := demo_host) (crypt := demo_crypt)
                    1 (amx_params [7; 43; 0; 0]) boot)))).
    reflexivity.
  - intros H.
    apply (proj1 (proj1 (native_outcomes
                    (host := demo_host) (crypt := demo_crypt)
                    1 [17; 7; 42; 100; 10] boot))) in H.
    destruct H as [H _]. discriminate H.
Defined.

(** ** Runs, further *)

Section RunFurther.

Context {host : AmxFunctions} {crypt : Bcrypt}.

(** What a step does to the threads that are running. *)
Lemma step_running s l s' :
  step s l s' ->
  match l with
  | LPush items =>
      exists before t after,
        running (fst s) = before ++ t :: after /\
        running (fst s') = before ++ after /\
        items = [result_of t]
  | LHost =>
      running (fst s') = running (fst s) \/
      exists t, valid_job t /\ running (fst s') = running (fst s) ++ [t]
  | LTickSkip | LTickEnter | LDrain _ => running (fst s') = running (fst s)
  end.
Proof.
  intros Hstep. destruct Hstep; simpl.
  - subst w'. exists before, t, after. unfold exec_M.
    rewrite run_thread_eq. simpl.
    rewrite skipn_app, skipn_all, Nat.sub_diag.
    split; [assumption | split; reflexivity].
  - reflexivity.
  - reflexivity.
  - unfold exec_M. rewrite ProcessTick_locked_eq. reflexivity.
  - destruct (bcrypt_hash_cases amx params w)
      as [[_ Hr] | [(_ & _ & Hr) | (_ & Hc & Hr)]].
    + left. apply Hr.
    + left. apply Hr.
    + right. eexists. split; [| apply Hr]. exact Hc.
  - destruct (bcrypt_check_cases amx params w) as [[_ Hr] | [_ Hr]].
    + left. apply Hr.
    + right. eexists. split; [| apply Hr]. exact I.
  - left. reflexivity.
  - left. reflexivity.
  - left. reflexivity.
Qed.

Lemma run_app s tr1 s1 tr2 s2 :
  run s tr1 s1 -> run s1 tr2 s2 -> run s (tr1 ++ tr2) s2.
Proof.
  induction 1 as [s | s l s0 tr s1 Hstep Hrun IH]; intros Hnext; simpl.
  - exact Hnext.
  - eapply run_cons; [exact Hstep | exact (IH Hnext)].
Qed.

End RunFurther.

Section CompletionLemmas.

Context {host : AmxFunctions} {crypt : Bcrypt}.

(** The first of the running threads finishes. *)
Lemma step_worker_head w pc t ts :
  running w = t :: ts ->
  step (w, pc) (LPush [result_of t])
       (set_bcrypt_queue (bcrypt_queue w ++ [result_of t]) (set_running ts w),
        pc).
Proof.
  intros Hrun.
  pose proof (step_worker w pc [] t ts _ Hrun eq_refl) as Hstep.
  unfold exec_M in Hstep. rewrite run_thread_eq in Hstep. simpl in Hstep.
  rewrite skipn_app, skipn_all, Nat.sub_diag in Hstep. exact Hstep.
Qed.

(** All running threads can finish, in the order they were started. *)
Lemma run_finish_all ts w pc :
  running w = ts -> run (w, pc) (finish_labels ts) (finish_all ts w, pc).
Proof.
  revert w. induction ts as [| t ts IH]; intros w Hrun.
  - simpl. unfold finish_all. simpl. rewrite app_nil_r.
    replace (set_running [] (set_bcrypt_queue (bcrypt_queue w) w)) with w
      by (destruct w; simpl in *; subst; reflexivity).
    apply run_nil.
  - simpl. eapply run_cons; [apply step_worker_head; exact Hrun |].
    replace (finish_all (t :: ts) w)
      with (finish_all ts (set_bcrypt_queue (bcrypt_queue w ++ [result_of t])
                                            (set_running ts w))).
    + apply IH. reflexivity.
    + unfold finish_all, set_running, set_bcrypt_queue. simpl.
      rewrite <- app_assoc. reflexivity.
Qed.

Lemma pushed_app tr1 tr2 : pushed (tr1 ++ tr2) = pushed tr1 ++ pushed tr2.
Proof. unfold pushed. apply flat_map_app. Qed.

Lemma pushed_finish_labels ts : pushed (finish_labels ts) = map result_of ts.
Proof.
  induction ts as [| t ts IH]; [reflexivity |].
  unfold pushed, finish_labels in *. simpl. rewrite IH. reflexivity.
Qed.

(** From anywhere the host can get out of a tick with the queue empty,
    with no help from the workers. *)
Lemma run_tick_out w pc :
  exists tr w',
    run (w, pc) tr (w', Idle) /\ pushed tr = [] /\
    bcrypt_queue w' = [] /\ running w' = running w /\ p_Amx w' = p_Amx w.
Proof.
  assert (Hdrain : run (w, Entered) [LDrain (bcrypt_queue w)]
                       (exec_M ProcessTick_locked w, Idle)).
  { eapply run_cons; [apply step_tick_drain | apply run_nil]. }
  assert (Hafter : bcrypt_queue (exec_M ProcessTick_locked w) = [] /\
                   running (exec_M ProcessTick_locked w) = running w /\
                   p_Amx (exec_M ProcessTick_locked w) = p_Amx w).
  { unfold exec_M. rewrite ProcessTick_locked_eq. repeat split. }
  destruct pc.
  - destruct (ProcessTick_test w) eqn:Htest.
    + exists [LTickEnter; LDrain (bcrypt_queue w)], (exec_M ProcessTick_locked w).
      split; [| split; [reflexivity | exact Hafter]].
      eapply run_cons; [apply step_tick_enter; exact Htest | exact Hdrain].
    + exists [], w. split; [apply run_nil |].
      apply ProcessTick_test_false in Htest. repeat split. exact Htest.
  - exists [LDrain (bcrypt_queue w)], (exec_M ProcessTick_locked w).
    split; [exact Hdrain | split; [reflexivity | exact Hafter]].
Qed.

End CompletionLemmas.

(** X12.  The bcrypt class is never asked for a cost outside 4..31: along
    any run, if the hashing threads running at the start have their cost
    in 4..31, so have those running at the end; in particular every
    hashing thread of a run from the start of the plugin has. *)
Theorem running_costs_valid {host : AmxFunctions} {crypt : Bcrypt}
    (s : system) (tr : list label) (s' : system) :
  run s tr s' ->
  Forall valid_job (running (fst s)) ->
  Forall valid_job (running (fst s')).
Proof.
  induction 1 as [s | s l s1 tr s' Hstep Hrun IH]; intros Hvalid.
  - exact Hvalid.
  - apply IH. apply step_running in Hstep. destruct l.
    + destruct Hstep as (before & t & after & Hs & Hs1 & _).
      rewrite Hs in Hvalid. rewrite Hs1.
      apply Forall_app in Hvalid. destruct Hvalid as [Hb Hta].
      apply Forall_app. split; [exact Hb |].
      inversion Hta; assumption.
    + rewrite Hstep. exact Hvalid.
    + rewrite Hstep. exact Hvalid.
    + rewrite Hstep. exact Hvalid.
    + destruct Hstep as [Hsame | (t & Ht & Hs1)].
      * rewrite Hsame. exact Hvalid.
      * rewrite Hs1. apply Forall_app. split; [exact Hvalid |].
        constructor; [exact Ht | constructor].
Qed.

(** The first three steps of the example run. *)
Lemma demo_run_submit :
  run (host := demo_host) (crypt := demo_crypt)
      (boot, Idle) [LHost; LHost; LHost] (demo_w3, Idle).
Proof.
  eapply run_cons; [exact (step_AmxLoad boot 1) |].
  eapply run_cons;
    [exact (step_bcrypt_hash demo_w1 1 (amx_params [7; 42; 100; 10])) |].
  eapply run_cons;
    [exact (step_bcrypt_check demo_w2 1 (amx_params [7; 43; 100; 200])) |].
  apply run_nil.
Qed.

Lemma running_costs_valid_witness : Forall valid_job (running demo_w3).
Proof.
  exact (running_costs_valid (host := demo_host) (crypt := demo_crypt)
           (boot, Idle) [LHost; LHost; LHost] (demo_w3, Idle)
           demo_run_submit (Forall_nil valid_job)).
Defined.

(** The rest of the example run. *)
Lemma demo_run_finish :
  run (host := demo_host) (crypt := demo_crypt)
      (demo_w3, Idle)
      [LPush [demo_hashed]; LTickEnter; LPush [demo_checked];
       LDrain [demo_hashed; demo_checked]]
      (demo_w6, Idle).
Proof.
  eapply run_cons; [exact demo_step_worker |].
  eapply run_cons; [exact (step_tick_enter demo_w4 eq_refl) |].
  eapply run_cons;
    [exact (step_worker demo_w4 Entered [] demo_job_check [] demo_w5
              eq_refl eq_refl) |].
  eapply run_cons; [exact (step_tick_drain demo_w5) |].
  apply run_nil.
Qed.

(** X13.  No job is lost and none runs twice.  In a run during which the
    host submits nothing, the threads running at the start are, up to
    order, those that finished followed by those still running, and the
    items appended during the run are the results of the finished
    threads, one each, in the order they finished. *)
Theorem jobs_conserved {host : AmxFunctions} {crypt : Bcrypt}
    (s : system) (tr : list label) (s' : system) :
  run s tr s' ->
  ~ In LHost tr ->
  exists finished,
    Permutation (running (fst s)) (finished ++ running (fst s')) /\
    pushed tr = map result_of finished.
Proof.
  induction 1 as [s | s l s1 tr s' Hstep Hrun IH]; intros Hquiet.
  - exists []. split; [apply Permutation_refl | reflexivity].
  - destruct IH as (finished & Hperm & Hpushed).
    { intros Hin. apply Hquiet. right. exact Hin. }
    apply step_running in Hstep. destruct l.
    + destruct Hstep as (before & t & after & Hs & Hs1 & Hitems).
      exists (t :: finished). split.
      * rewrite Hs. simpl.
        apply Permutation_trans with (t :: before ++ after).
        -- apply Permutation_sym, Permutation_middle.
        -- constructor. rewrite <- Hs1. exact Hperm.
      * unfold pushed in *. simpl. rewrite Hitems, Hpushed. reflexivity.
    + exists finished. rewrite <- Hstep. split; assumption.
    + exists finished. rewrite <- Hstep. split; assumption.
    + exists finished. rewrite <- Hstep. split; assumption.
    + exfalso. apply Hquiet. left. reflexivity.
Qed.

Lemma jobs_conserved_witness :
  exists finished,
    Permutation (running demo_w3) (finished ++ running demo_w6) /\
    [demo_hashed; demo_checked] = map (result_of (crypt := demo_crypt)) finished.
Proof.
  apply (jobs_conserved (host := demo_host) (crypt := demo_crypt)
           (demo_w3, Idle) _ (demo_w6, Idle) demo_run_finish).
  simpl. intros [H | [H | [H | [H | []]]]]; discriminate H.
Defined.

(** X14.  The plugin cannot get stuck with work pending.  From any state
    there is a run in which every running thread finishes and the host
    leaves [ProcessTick] with the queue empty: the items appended are the
    results of the threads of the start, in the order they were started,
    the drain cycles of the run find the items queued at the start
    followed by those results, and the registry is as it was. *)
Theorem jobs_can_complete {host : AmxFunctions} {crypt : Bcrypt} (s : system) :
  exists tr s',
    run s tr s' /\
    snd s' = Idle /\
    running (fst s') = [] /\
    bcrypt_queue (fst s') = [] /\
    p_Amx (fst s') = p_Amx (fst s) /\
    pushed tr = map result_of (running (fst s)) /\
    concat (drained tr) =
      bcrypt_queue (fst s) ++ map result_of (running (fst s)).
Proof.
  destruct s as [w pc].
  pose proof (run_finish_all (running w) w pc eq_refl) as Hfinish.
  destruct (run_tick_out (finish_all (running w) w) pc)
    as (tr2 & w' & Htick & Hnone & Hq & Hrun & Hreg).
  pose proof (run_app _ _ _ _ _ Hfinish Htick) as Hall.
  assert (Hpushed : pushed (finish_labels (running w) ++ tr2) =
                    map result_of (running w)).
  { rewrite pushed_app, pushed_finish_labels, Hnone. apply app_nil_r. }
  exists (finish_labels (running w) ++ tr2), (w', Idle). simpl.
  split; [exact Hall |]. split; [reflexivity |].
  split; [rewrite Hrun; reflexivity |].
  split; [exact Hq |]. split; [rewrite Hreg; reflexivity |].
  split; [exact Hpushed |].
  apply run_conservation in Hall. simpl in Hall.
  rewrite Hq, app_nil_r, Hpushed in Hall. symmetry. exact Hall.
Qed.

(** ** From a request to its callback *)

Section Delivery.

Context {host : AmxFunctions} {crypt : Bcrypt}.

Lemma new_calls_ext w w' evs :
  amx_trace w' = amx_trace w ++ evs -> new_calls w w' = evs.
Proof.
  intros H. unfold new_calls. rewrite H.
  rewrite skipn_app, skipn_all, Nat.sub_diag. reflexivity.
Qed.

(** A lone thread finishes and the next tick drains its result. *)
Lemma run_finish_and_drain w1 t :
  running w1 = [t] ->
  bcrypt_queue w1 = [] ->
  run (w1, Idle)
      [LPush [result_of t]; LTickEnter; LDrain [result_of t]]
      (exec_M ProcessTick_locked
              (set_bcrypt_queue [result_of t] (set_running [] w1)), Idle).
Proof.
  intros Hrun Hq.
  pose proof (step_worker_head w1 Idle t [] Hrun) as Hwork.
  rewrite Hq in Hwork. simpl in Hwork.
  eapply run_cons; [exact Hwork |].
  eapply run_cons; [apply step_tick_enter; reflexivity |].
  eapply run_cons;
    [exact (step_tick_drain
              (set_bcrypt_queue [result_of t] (set_running [] w1))) |].
  apply run_nil.
Qed.

(** What that run leaves, for a thread started by an accepted call. *)
Lemma accepted_then_delivered t w r :
  accepted t w r ->
  running w = [] ->
  bcrypt_queue w = [] ->
  exists w',
    run (snd r, Idle)
        [LPush [result_of t]; LTickEnter; LDrain [result_of t]] (w', Idle) /\
    new_calls w w' =
      flat_map (fun a => flat_map (offer a) [result_of t]) (p_Amx w) /\
    bcrypt_queue w' = [] /\ running w' = [] /\ console w' = console w.
Proof.
  intros (_ & Hrun & Hq & Hcon & Hreg & Htrace) Hidle Hempty.
  rewrite Hidle in Hrun. rewrite Hempty in Hq. simpl in Hrun.
  eexists. split; [apply run_finish_and_drain; assumption |].
  unfold exec_M. rewrite ProcessTick_locked_eq. simpl.
  split; [| split; [reflexivity | split; [reflexivity | exact Hcon]]].
  apply new_calls_ext. simpl. rewrite Htrace.
  unfold cycle_calls. simpl. rewrite Hreg. reflexivity.
Qed.

End Delivery.

(** X15.  From request to callback, for hashing.  With nothing else
    pending, a call of [bcrypt_hash] with four arguments and a cost in
    4..31 can be followed by its worker finishing and by one tick, and
    that tick hands to every registered script that implements
    [OnBcryptHashed] the identifiers of the call and the digest of the
    password it named, computed with the cost it named and the prefix
    [2y]; then nothing is left queued or running. *)
Theorem hash_request_delivered {host : AmxFunctions} {crypt : Bcrypt}
    (amx : AMX) (idx id pw c : cell) (w : world) :
  4 <= to_ushort c <= 31 ->
  running w = [] ->
  bcrypt_queue w = [] ->
  let item :=
    {| type := BCRYPT_QUEUE_HASH; thread_idx := idx; thread_id := id;
       hash := bcrypt_generate (to_ushort c) "2y" (string_param amx pw);
       match_ := false |} in
  exists w',
    run (w, Idle) [LHost; LPush [item]; LTickEnter; LDrain [item]] (w', Idle) /\
    new_calls w w' = flat_map (fun a => flat_map (offer a) [item]) (p_Amx w) /\
    bcrypt_queue w' = [] /\ running w' = [] /\ console w' = console w.
Proof.
  intros Hc Hidle Hempty item.
  pose proof (bcrypt_hash_good_cost amx (amx_params [idx; id; pw; c]) w
                eq_refl Hc) as Hacc.
  destruct (accepted_then_delivered _ _ _ Hacc Hidle Hempty)
    as (w' & Hrun & Hrest).
  exists w'. split; [| exact Hrest].
  eapply run_cons; [apply step_bcrypt_hash | exact Hrun].
Qed.

Lemma hash_request_delivered_witness :
  exists w',
    run (host := demo_host) (crypt := demo_crypt)
        (demo_w1, Idle)
        [LHost; LPush [demo_hashed]; LTickEnter; LDrain [demo_hashed]]
        (w', Idle) /\
    new_calls demo_w1 w' =
      [EvPushString 1 "$2y$abc"; EvPush 1 42; EvPush 1 7; EvExec 1 0;
       EvRelease 1 0] /\
    bcrypt_queue w' = [] /\ running w' = [] /\ console w' = console demo_w1.
Proof.
  apply (hash_request_delivered (host := demo_host) (crypt := demo_crypt)
           1 7 42 100 10 demo_w1).
  - split; discriminate.
  - reflexivity.
  - reflexivity.
Defined.

(** X16.  From request to callback, for checking.  With nothing else
    pending, a call of [bcrypt_check] with four arguments can be followed
    by its worker finishing and by one tick, and that tick hands to every
    registered script that implements [OnBcryptChecked] the identifiers
    of the call and the outcome of comparing the password and the hash it
    named; then nothing is left queued or running. *)
Theorem check_request_delivered {host : AmxFunctions} {crypt : Bcrypt}
    (amx : AMX) (idx id pw h : cell) (w : world) :
  running w = [] ->
  bcrypt_queue w = [] ->
  let item :=
    {| type := BCRYPT_QUEUE_CHECK; thread_idx := idx; thread_id := id;
       hash := "";
       match_ := bcrypt_compare (string_param amx pw) (string_param amx h) |}
  in
  exists w',
    run (w, Idle) [LHost; LPush [item]; LTickEnter; LDrain [item]] (w', Idle) /\
    new_calls w w' = flat_map (fun a => flat_map (offer a) [item]) (p_Amx w) /\
    bcrypt_queue w' = [] /\ running w' = [] /\ console w' = console w.
Proof.
  intros Hidle Hempty item.
  pose proof (bcrypt_check_good amx (amx_params [idx; id; pw; h]) w eq_refl)
    as Hacc.
  destruct (accepted_then_delivered _ _ _ Hacc Hidle Hempty)
    as (w' & Hrun & Hrest).
  exists w'. split; [| exact Hrest].
  eapply run_cons; [apply step_bcrypt_check | exact Hrun].
Qed.

Lemma check_request_delivered_witness :
  exists w',
    run (host := demo_host) (crypt := demo_crypt)
        (demo_w1, Idle)
        [LHost; LPush [demo_checked]; LTickEnter; LDrain [demo_checked]]
        (w', Idle) /\
    new_calls demo_w1 w' = [EvPush 1 1; EvPush 1 43; EvPush 1 7; EvExec 1 1] /\
    bcrypt_queue w' = [] /\ running w' = [] /\ console w' = console demo_w1.
Proof.
  apply (check_request_delivered (host := demo_host) (crypt := demo_crypt)
           1 7 43 100 200 demo_w1); reflexivity.
Defined.

(** ** Who touches what *)



(** ** Attaching and detaching between ticks *)

(** X18.  A script that was registered at most once gets no call from the
    tick that follows its detaching, whatever is queued. *)
Theorem detached_script_not_called {host : AmxFunctions} {crypt : Bcrypt}
    (amx : AMX) (w : world) (e : amx_event) :
  (count_occ Z.eq_dec (p_Amx w) amx <= 1)%nat ->
  let w1 := exec_M (AmxUnload amx) w in
  In e (new_calls w1 (exec_M ProcessTick w1)) ->
  event_amx e <> amx.
Proof.
  intros Honce w1 Hin Heq. subst w1.
  rewrite ProcessTick_calls in Hin.
  apply cycle_calls_registered in Hin. rewrite Heq in Hin.
  apply (count_occ_In Z.eq_dec) in Hin.
  unfold exec_M, AmxUnload, bind, ret in Hin. simpl in Hin.
  rewrite count_occ_erase_first in Hin.
  destruct (Z.eq_dec amx amx); [lia | contradiction].
Qed.

Lemma detached_script_not_called_witness : event_amx (EvExec 2 0) <> 1.
Proof.
  apply (detached_script_not_called (host := demo_host) (crypt := demo_crypt)
           1 demo_world (EvExec 2 0)).
  - simpl. lia.
  - simpl. right. right. right. left. reflexivity.
Defined.

(** X19.  A script attached between two ticks is served last and gets
    everything that is pending, also the results of jobs submitted before
    it was attached: the calls of the next tick are those the tick would
    have made without it, followed by the offers of every queued item to
    the new script. *)
Theorem attached_script_served_last {host : AmxFunctions} {crypt : Bcrypt}
    (amx : AMX) (w : world) :
  let w1 := exec_M (AmxLoad amx) w in
  new_calls w1 (exec_M ProcessTick w1) =
  new_calls w (exec_M ProcessTick w) ++ flat_map (offer amx) (bcrypt_queue w).
Proof.
  intros w1. subst w1. rewrite !ProcessTick_calls.
  unfold cycle_calls, exec_M, AmxLoad, bind, ret. simpl.
  rewrite flat_map_app. simpl. rewrite app_nil_r. reflexivity.
Qed.
